(** * upload_to_dropbox.py: merging member files into a master tar archive
      kept in Dropbox, and the chunked upload that ships it.

    The development embeds the functions of [src/upload_to_dropbox.py] as
    computations over an explicit world (local files and the log of remote
    calls), and proves the properties the specification states about them.

    What the embedding leaves out or fixes:
    - [print] and the progress bar have no effect on files, calls or exit
      status and are dropped;
    - a path names a file by its spelling: two paths are the same file only
      when they are the same string, and any path can be opened for writing.
      This is how the file system behaves on absolute, normalised paths to
      files ([normal_path]); a remote path whose base name is no file name
      ([file_name]) gives a download path that cannot be opened;
    - a tar container is a list of regular files by name, and extraction
      writes each under its name: this is what [tarfile] does on flat
      archives ([flat_archive]), whose names have no directory part;
    - strings are byte strings and white space is ASCII white space, which
      is what [str.strip] removes from ASCII input ([str_isascii]);
    - the remote store is an arbitrary client: every method may return or
      raise, depending on the calls made so far;
    - the bytes handed to the store are recorded as slices of the local file
      (position and length), not copied. *)

From Stdlib Require Import Ascii String Strings.Byte ZArith Lia.
From stdpp Require Import base gmap strings list.
From Equations Require Import Equations.

Open Scope Z_scope.

#[local] Set Warnings "-register-all".

(** ** Strings: the [str] methods and [os.path] functions the script uses.
    Strings are byte strings; only ASCII white space is recognised, so
    [str_strip] is [str.strip] on ASCII strings. *)

(** [str.isspace] on one character: tab, newline, vertical tab, form feed,
    carriage return, the four separators 0x1c-0x1f and the space. *)
Definition isspace (c : ascii) : bool :=
  let n := nat_of_ascii c in
  ((9 <=? n) && (n <=? 13) || (28 <=? n) && (n <=? 32))%nat.

Fixpoint str_lstrip (s : string) : string :=
  match s with
  | EmptyString => EmptyString
  | String c r => if isspace c then str_lstrip r else s
  end.

Fixpoint str_rstrip (s : string) : string :=
  match s with
  | EmptyString => EmptyString
  | String c r =>
      match str_rstrip r with
      | EmptyString => if isspace c then EmptyString else String c EmptyString
      | r' => String c r'
      end
  end.

(** [s.strip()] *)
Definition str_strip (s : string) : string := str_rstrip (str_lstrip s).

(** [s.split(sep)] for a one-character separator: never the empty list. *)
Fixpoint str_split (sep : ascii) (s : string) : list string :=
  match s with
  | EmptyString => [EmptyString]
  | String c r =>
      if Ascii.eqb c sep then EmptyString :: str_split sep r
      else match str_split sep r with
           | [] => [String c EmptyString]
           | h :: t => String c h :: t
           end
  end.

(** [s.endswith(suffix)] *)
Definition str_endswith (s suffix : string) : bool :=
  let n := String.length s in
  let k := String.length suffix in
  (k <=? n)%nat && String.eqb (substring (n - k) k s) suffix.

(** [s.endswith((suffix1, suffix2, ...))] *)
Definition str_endswith_any (s : string) (suffixes : list string) : bool :=
  existsb (str_endswith s) suffixes.

Definition str_startswith (s pre : string) : bool := String.prefix pre s.

Module os_path.

(** [os.path.basename]: what follows the last slash. *)
Definition basename (p : string) : string :=
  List.last (str_split "/" p) EmptyString.

(** [os.path.join] of two components. *)
Definition join (a b : string) : string :=
  if str_startswith b "/" then b
  else if String.eqb a "" || str_endswith a "/" then a +:+ b
  else a +:+ "/" +:+ b.

End os_path.

(** [tempfile.gettempdir()]: the system's directory for temporary files. *)
Definition gettempdir : string := "/tmp".

(** ** Local files

    A file is either raw bytes or a tar container: its compression and its
    members in archive order, each a name and the data stored under it.
    Containers are flat: members are regular files and a member's name is
    the name of the file it extracts to. *)

Inductive compression := Uncompressed | Gzip | Bzip2 | Lzma.

Inductive file_data :=
| Bytes (b : list Byte.byte)
| Tar (c : compression) (members : list (string * file_data)).

Definition empty_file : file_data := Bytes [].

(** ** The Dropbox client *)

(** Errors of the download route, as the SDK's unions. *)
Inductive LookupError :=
| malformed_path | not_found | not_file | not_folder
| restricted_content | unsupported_content_type | locked | lookup_other.

Inductive DownloadError :=
| path (e : LookupError) | unsupported_file | download_other.

Definition is_path (e : DownloadError) : bool :=
  match e with path _ => true | _ => false end.

Definition get_path (e : DownloadError) : option LookupError :=
  match e with path l => Some l | _ => None end.

Definition is_not_found (l : LookupError) : bool :=
  match l with not_found => true | _ => false end.

(** Python exceptions the script can meet. [ApiError] carries the route's
    error union; only the download route's is ever inspected. *)
Inductive exn :=
| AuthError
| ApiError (error : DownloadError)
| OSError
| ReadError
| OtherException.

(** Bytes handed to the remote store: a slice of the local file read by
    [f.read], given by where it starts in the file and how long it is. *)
Record chunk := Chunk { chunk_start : Z; chunk_len : Z }.

Inductive WriteMode := add | overwrite | update.

Record UploadSessionCursor := Cursor { session_id : string; offset : Z }.

Record CommitInfo := Commit { commit_path : string; commit_mode : WriteMode }.

(** One entry of the log per call that reaches the remote store, with the
    arguments as they are at the time of the call. *)
Inductive call :=
| UsersGetCurrentAccount
| FilesDownloadToFile (download_path dropbox_path : string)
| FilesUpload (f : chunk) (dropbox_path : string) (mode : WriteMode)
| SessionStart (f : chunk)
| SessionAppend (f : chunk) (cursor : UploadSessionCursor)
| SessionFinish (f : chunk) (cursor : UploadSessionCursor) (commit : CommitInfo).

Inductive result (A : Type) := Returns (a : A) | Raises (e : exn).
Arguments Returns {A} a.
Arguments Raises {A} e.

(** The remote store is not under the script's control: each method answers
    as it likes, possibly depending on every call made so far. *)
Record Dropbox := {
  users_get_current_account : list call → result unit;
  files_download_to_file : list call → string → string → result file_data;
  files_upload : list call → chunk → string → WriteMode → result unit;
  files_upload_session_start : list call → chunk → result string;
  files_upload_session_append_v2 :
    list call → chunk → UploadSessionCursor → result unit;
  files_upload_session_finish :
    list call → chunk → UploadSessionCursor → CommitInfo → result unit
}.

(** ** Computations

    The world a run acts on: the local files by path and the log of remote
    calls, oldest first. A computation returns, leaves through [sys.exit],
    or raises. *)

Record world := World { fs : gmap string file_data; calls : list call }.

Inductive outcome (A : Type) :=
| Ret (a : A)
| Exit (code : Z)
| Raise (e : exn).
Arguments Ret {A} a.
Arguments Exit {A} code.
Arguments Raise {A} e.

Definition M (A : Type) : Type := world → outcome A * world.

Global Instance M_ret : MRet M := λ A a w, (Ret a, w).

Global Instance M_bind : MBind M := λ A B k m w,
  match m w with
  | (Ret a, w') => k a w'
  | (Exit code, w') => (Exit code, w')
  | (Raise e, w') => (Raise e, w')
  end.

Definition sys_exit {A} (code : Z) : M A := λ w, (Exit code, w).

Definition raise {A} (e : exn) : M A := λ w, (Raise e, w).

(** [try: body / except ...:] where [handler] tells which exceptions the
    clauses catch and what they do; [sys.exit] is not an [Exception] and
    always passes through. *)
Definition try_except {A} (body : M A) (handler : exn → option (M A)) : M A :=
  λ w, match body w with
       | (Raise e, w') =>
           match handler e with
           | Some h => h w'
           | None => (Raise e, w')
           end
       | r => r
       end.

(** What the shell sees when the interpreter stops: an exception nobody
    caught prints a traceback and gives status 1. *)
Definition exit_status {A} (o : outcome A) : Z :=
  match o with
  | Ret _ => 0
  | Exit code => code
  | Raise _ => 1
  end.

(** Local file operations. *)

Definition os_path_exists (p : string) : M bool :=
  λ w, (Ret (bool_decide (is_Some (fs w !! p))), w).

(** [open(p, "wb")] and [tarfile.open(p, "w")] start by truncating [p].
    Opening succeeds: [p] is taken to be a path to a file, not to a
    directory. *)
Definition truncate (p : string) : M unit :=
  λ w, (Ret (), World (<[p := empty_file]> (fs w)) (calls w)).

Definition write_file (p : string) (d : file_data) : M unit :=
  λ w, (Ret (), World (<[p := d]> (fs w)) (calls w)).

Definition read_file (p : string) : M file_data :=
  λ w, match fs w !! p with
       | Some d => (Ret d, w)
       | None => (Raise OSError, w)
       end.

Definition os_remove (p : string) : M unit :=
  λ w, match fs w !! p with
       | Some _ => (Ret (), World (delete p (fs w)) (calls w))
       | None => (Raise OSError, w)
       end.

(** [tarfile.open(p, "r:*")]: any compression is read transparently. *)
Definition tarfile_open_r (p : string) : M (list (string * file_data)) :=
  λ w, match fs w !! p with
       | Some (Tar _ members) => (Ret members, w)
       | Some (Bytes _) => (Raise ReadError, w)
       | None => (Raise OSError, w)
       end.

(** [tar.add(name, arcname=arcname)] on the archive being written at
    [archive]. tarfile does not archive the archive: when [name] is the
    file being written, which opening has just truncated, the call adds
    nothing. Any other file is read and appended under [arcname]. tarfile
    compares absolute paths; the comparison of spellings made here agrees
    with it on normalised absolute paths. *)
Definition tar_add (archive name arcname : string)
    (members : list (string * file_data)) : M (list (string * file_data)) :=
  if decide (name = archive) then mret members
  else d ← read_file name; mret (members ++ [(arcname, d)]).

(** Leaving [with tarfile.open(p, "w") as tar:] normally writes the
    archive out, uncompressed. *)
Definition tarfile_close_w (p : string) (members : list (string * file_data)) : M unit :=
  write_file p (Tar Uncompressed members).

(** [tar.extractall(path=tmpdir)]: members are written in archive order, a
    later one replacing an earlier one of the same name. The scratch
    directory is keyed by member name: this is extraction of a flat archive,
    which creates no directory and writes nothing outside [tmpdir]. *)
Definition extractall (members : list (string * file_data))
    (tmpdir : gmap string file_data) : gmap string file_data :=
  foldl (λ d m, <[m.1 := m.2]> d) tmpdir members.

(** [os.listdir]: the names in a directory, in an order the system picks. *)
Definition os_listdir (tmpdir : gmap string file_data) : list string :=
  (map_to_list tmpdir).*1.

(** Truth value of [master_tar_path]: [None] and the empty string are
    false. *)
Definition truthy (p : option string) : bool :=
  match p with
  | None => false
  | Some s => negb (String.eqb s "")
  end.

(** ** [update_master_tar] *)

Definition temp_tar_path (dropbox_path : string) : string :=
  os_path.join gettempdir ("temp_" +:+ os_path.basename dropbox_path).

(** The scratch directory of [tempfile.TemporaryDirectory()] is fresh, empty
    and removed on every way out of the [with] block: it is a local map from
    file name to data, invisible in the world before and after. *)
Definition update_master_tar (master_tar_path : option string)
    (new_file_path dropbox_path : string) : M string :=
  let temp_tar_path := temp_tar_path dropbox_path in
  let new_file_name := os_path.basename new_file_path in
  if negb (truthy master_tar_path) then
    (* Create new tar if none exists *)
    truncate temp_tar_path;;
    tar ← tar_add temp_tar_path new_file_path new_file_name [];
    tarfile_close_w temp_tar_path tar;;
    mret temp_tar_path
  else
    (* Update existing tar *)
    let tmpdir : gmap string file_data := ∅ in
    (* Extract existing contents *)
    members ← tarfile_open_r (default "" master_tar_path);
    let tmpdir := extractall members tmpdir in
    (* Remove existing version if present *)
    let tmpdir :=
      if bool_decide (is_Some (tmpdir !! new_file_name))
      then delete new_file_name tmpdir else tmpdir in
    (* Add new file *)
    d ← read_file new_file_path;
    let tmpdir := <[new_file_name := d]> tmpdir in
    (* Create updated tar *)
    truncate temp_tar_path;;
    tarfile_close_w temp_tar_path
      (omap (λ item, (item,.) <$> tmpdir !! item) (os_listdir tmpdir));;
    mret temp_tar_path.

(** Members that extraction followed by the insertion of [name] leaves in
    the scratch directory, as the re-pack lists them. *)
Definition merged_members (members : list (string * file_data))
    (name : string) (d : file_data) : list (string * file_data) :=
  map_to_list (<[name := d]> (extractall members ∅)).


(** ** Names, paths and input the embedding speaks for

    The world above keys files by the spelling of their path, keeps the
    scratch directory as a flat map from member name to data, and strips
    ASCII white space only. The script and the libraries under it do more:
    [tarfile] makes directories for member names with a slash and compares
    paths by [os.path.abspath], [open] refuses a path that names a directory
    or holds a name too long for a directory entry, and [str.strip] knows
    the white space of Unicode. The predicates below mark out the inputs on
    which none of this shows; the theorems on the merge, the fetch and the
    entries of [main] are stated for such inputs. *)

(** A character a file name can hold: any but the slash and NUL. *)
Definition name_char (c : ascii) : bool :=
  negb (Ascii.eqb c "/") && negb (Ascii.eqb c "000").

(** The longest name a directory entry can have, in bytes, on the file
    systems of Linux. *)
Definition NAME_MAX : nat := 255.

(** The name of a file in a directory: not empty, neither [.] nor [..], at
    most [NAME_MAX] bytes, no slash and no NUL. *)
Definition file_name (n : string) : bool :=
  negb (String.eqb n "") && negb (String.eqb n ".") && negb (String.eqb n "..")
  && (String.length n <=? NAME_MAX)%nat
  && forallb name_char (list_ascii_of_string n).

(** A remote path that names a file the script can keep local copies of:
    its base name, under which the download is stored, and that name after
    [temp_], under which the merge is written, are file names. *)
Definition remote_file (dropbox_path : string) : bool :=
  file_name (os_path.basename dropbox_path)
  && file_name ("temp_" +:+ os_path.basename dropbox_path).

(** A flat archive: every member name is a file name, so that extraction
    writes one regular file per name straight into the scratch directory. *)
Definition flat_archive (members : list (string * file_data)) : bool :=
  forallb (λ m, file_name m.1) members.

(** An absolute, normalised path to a file: a slash, then one or more file
    names separated by single slashes. It is what [os.path.abspath] returns
    for itself, so two such paths name the same directory entry only when
    they are spelled the same. *)
Definition normal_path (p : string) : bool :=
  match str_split "/" p with
  | EmptyString :: c :: comps => forallb file_name (c :: comps)
  | _ => false
  end.

(** [s.isascii()]: every byte is below 128. On such strings [str.strip]
    removes exactly the characters of [isspace]. *)
Definition str_isascii (s : string) : bool :=
  forallb (λ c, (nat_of_ascii c <? 128)%nat) (list_ascii_of_string s).

(** The archive a merge starts from, when there is one: it sits at a normal
    path and, when it is a tar container, it is flat. [None] and the empty
    string stand for no archive. *)
Definition flat_master (files : gmap string file_data) (master : option string)
    : bool :=
  if truthy master then
    normal_path (default "" master) &&
    match files !! default "" master with
    | Some (Tar _ members) => flat_archive members
    | _ => true
    end
  else true.


(** A no-break space, U+00A0, as UTF-8. *)
Definition nbsp : string :=
  String (ascii_of_nat 194) (String (ascii_of_nat 160) EmptyString).

(** ** Calls to the remote store

    A call is logged with its arguments and answered by the client, which
    sees the log as it was before the call. *)
Definition invoke {A} (c : call) (answer : list call → result A) : M A :=
  λ w, let w' := World (fs w) (calls w ++ [c]) in
       match answer (calls w) with
       | Returns a => (Ret a, w')
       | Raises e => (Raise e, w')
       end.

Definition dbx_users_get_current_account (dbx : Dropbox) : M unit :=
  invoke UsersGetCurrentAccount (users_get_current_account dbx).

Definition dbx_files_download_to_file (dbx : Dropbox)
    (download_path dropbox_path : string) : M file_data :=
  invoke (FilesDownloadToFile download_path dropbox_path)
         (λ log, files_download_to_file dbx log download_path dropbox_path).

Definition dbx_files_upload (dbx : Dropbox) (f : chunk) (dropbox_path : string)
    (mode : WriteMode) : M unit :=
  invoke (FilesUpload f dropbox_path mode)
         (λ log, files_upload dbx log f dropbox_path mode).

Definition dbx_files_upload_session_start (dbx : Dropbox) (f : chunk) : M string :=
  invoke (SessionStart f) (λ log, files_upload_session_start dbx log f).

Definition dbx_files_upload_session_append_v2 (dbx : Dropbox) (f : chunk)
    (cursor : UploadSessionCursor) : M unit :=
  invoke (SessionAppend f cursor)
         (λ log, files_upload_session_append_v2 dbx log f cursor).

Definition dbx_files_upload_session_finish (dbx : Dropbox) (f : chunk)
    (cursor : UploadSessionCursor) (commit : CommitInfo) : M unit :=
  invoke (SessionFinish f cursor commit)
         (λ log, files_upload_session_finish dbx log f cursor commit).

(** ** [upload_to_dropbox] *)

Definition CHUNK_SIZE : Z := 4 * 1024 * 1024.

(** A file open for reading: [tell] is [f.tell()], [size] the length of the
    file, which is also what [os.path.getsize] reports for it. *)
Record stream := Stream { tell : Z; size : Z }.

(** [f.read(n)]: at most [n] bytes, fewer at the end of the file. *)
Definition f_read (n : Z) (f : stream) : chunk * stream :=
  let k := Z.max 0 (Z.min n (size f - tell f)) in
  (Chunk (tell f) k, Stream (tell f + k) (size f)).

(** [f.read()]: all that is left. *)
Definition f_read_all (f : stream) : chunk * stream :=
  f_read (size f - tell f) f.

(** The [while f.tell() < file_size] loop of the session branch, where
    [file_size] is [size f]. The cursor object is updated in place after each
    append; a call failing leaves the loop with its exception. *)
Equations? session_loop (dbx : Dropbox) (commit : CommitInfo) (f : stream)
    (cursor : UploadSessionCursor) (w : world) : outcome unit * world
    by wf (Z.to_nat (size f - tell f)) lt :=
  session_loop dbx commit f cursor w with Z_lt_dec (tell f) (size f) := {
    | right _ => (Ret (), w)
    | left _ with Z_le_dec (size f - tell f) CHUNK_SIZE := {
        | left _ =>
            match dbx_files_upload_session_finish dbx
                    (f_read CHUNK_SIZE f).1 cursor commit w with
            | (Ret _, w') =>
                session_loop dbx commit (f_read CHUNK_SIZE f).2 cursor w'
            | (Exit code, w') => (Exit code, w')
            | (Raise e, w') => (Raise e, w')
            end
        | right _ =>
            match dbx_files_upload_session_append_v2 dbx
                    (f_read CHUNK_SIZE f).1 cursor w with
            | (Ret _, w') =>
                session_loop dbx commit (f_read CHUNK_SIZE f).2
                  (Cursor (session_id cursor) (tell (f_read CHUNK_SIZE f).2)) w'
            | (Exit code, w') => (Exit code, w')
            | (Raise e, w') => (Raise e, w')
            end } }.
Proof.
  all: unfold CHUNK_SIZE in *; simpl; lia.
Qed.

(** The suffixes [process_archive] lets through. *)
Definition supported_suffixes : list string := [".tar.gz"; ".tgz"; ".tar"].

Section script.

(** Length in bytes of a tar container as tarfile lays it out on disk. *)
Variable tar_size : compression → list (string * file_data) → Z.

Definition st_size (d : file_data) : Z :=
  match d with
  | Bytes b => Z.of_nat (length b)
  | Tar c members => tar_size c members
  end.

Definition os_path_getsize (p : string) : M Z :=
  d ← read_file p; mret (st_size d).

(** [open(p, "rb")] *)
Definition open_rb (p : string) : M stream :=
  d ← read_file p; mret (Stream 0 (st_size d)).

Definition upload_to_dropbox (dbx : Dropbox)
    (local_path dropbox_path : string) : M unit :=
  try_except
    (file_size ← os_path_getsize local_path;
     if bool_decide (file_size ≤ CHUNK_SIZE) then
       (* Small file upload *)
       f ← open_rb local_path;
       dbx_files_upload dbx (f_read_all f).1 dropbox_path overwrite
     else
       (* Large file upload *)
       f ← open_rb local_path;
       upload_session_start_result ←
         dbx_files_upload_session_start dbx (f_read CHUNK_SIZE f).1;
       let f := (f_read CHUNK_SIZE f).2 in
       let cursor := Cursor upload_session_start_result (tell f) in
       let commit := Commit dropbox_path overwrite in
       session_loop dbx commit f cursor)
    (λ e, Some (sys_exit 1)).

(** ** [download_from_dropbox] *)

Definition local_path_of (dropbox_path : string) : string :=
  os_path.join gettempdir (os_path.basename dropbox_path).

Definition download_from_dropbox (dbx : Dropbox) (dropbox_path : string)
    : M (option string) :=
  let local_path := local_path_of dropbox_path in
  try_except
    (truncate local_path;;
     d ← dbx_files_download_to_file dbx local_path dropbox_path;
     write_file local_path d;;
     mret (Some local_path))
    (λ e, match e with
          | ApiError err =>
              Some (if is_path err
                       && from_option is_not_found false (get_path err)
                    then mret None
                    else sys_exit 1)
          | _ => None
          end).

(** ** [initialize_dropbox], [process_archive] and [main] *)

Definition initialize_dropbox (dropbox_Dropbox : string → Dropbox)
    (access_token : string) : M Dropbox :=
  try_except
    (let dbx := dropbox_Dropbox access_token in
     (* Verify token works *)
     dbx_users_get_current_account dbx;;
     mret dbx)
    (λ e, match e with
          | AuthError => Some (sys_exit 1)
          | _ => None
          end).

Definition process_archive (file_path : string) : M string :=
  if str_endswith_any file_path supported_suffixes
  then mret file_path
  else sys_exit 1.

(** No statement to run: an untaken branch, or [continue]. *)
Definition pass : M unit := mret ().

(** [for x in l: body] *)
Fixpoint for_each {A} (l : list A) (body : A → M unit) : M unit :=
  match l with
  | [] => pass
  | x :: l' => body x;; for_each l' body
  end.

(** The body of the cleanup loop:
    [if path and os.path.exists(path): os.remove(path)]. *)
Definition remove_if_present (path : option string) : M unit :=
  if truthy path then
    present ← os_path_exists (default "" path);
    if (present : bool) then os_remove (default "" path) else pass
  else pass.

(** The body of the loop of [main] over the entries of [changed_files]. *)
Definition main_body (dbx : Dropbox) (dropbox_path file_path : string) : M unit :=
  if String.eqb (str_strip file_path) "" then pass (* continue *)
  else
    let file_path := str_strip file_path in
    (* Validate and process file *)
    processed_path ← process_archive file_path;
    (* Download existing master file *)
    master_path ← download_from_dropbox dbx dropbox_path;
    (* Update master archive *)
    updated_path ← update_master_tar master_path processed_path dropbox_path;
    (* Upload updated version *)
    upload_to_dropbox dbx updated_path dropbox_path;;
    (* Cleanup *)
    for_each [master_path; Some updated_path] remove_if_present.

(** [main], given the value of the environment variable
    DROPBOX_ACCESS_TOKEN and the SDK's client constructor. *)
Definition main (DROPBOX_ACCESS_TOKEN : option string)
    (dropbox_Dropbox : string → Dropbox)
    (changed_files dropbox_path : string) : M unit :=
  let access_token := DROPBOX_ACCESS_TOKEN in
  if negb (truthy access_token) then sys_exit 1
  else
    dbx ← initialize_dropbox dropbox_Dropbox (default "" access_token);
    for_each (str_split "," changed_files) (main_body dbx dropbox_path).

End script.

(** ** Sample remote stores *)

(** A store that accepts every call; it holds [remote] under every path. *)
Definition dbx_accepting (remote : option file_data) : Dropbox := {|
  users_get_current_account := λ _, Returns ();
  files_download_to_file := λ _ _ _,
    match remote with
    | Some d => Returns d
    | None => Raises (ApiError (path not_found))
    end;
  files_upload := λ _ _ _ _, Returns ();
  files_upload_session_start := λ _ _, Returns "session-1";
  files_upload_session_append_v2 := λ _ _ _, Returns ();
  files_upload_session_finish := λ _ _ _ _, Returns ()
|}.

(** A store whose uploads all fail. *)
Definition dbx_rejecting_uploads (remote : option file_data) : Dropbox := {|
  users_get_current_account := λ _, Returns ();
  files_download_to_file := files_download_to_file (dbx_accepting remote);
  files_upload := λ _ _ _ _, Raises OtherException;
  files_upload_session_start := λ _ _, Raises OtherException;
  files_upload_session_append_v2 := λ _ _ _, Raises OtherException;
  files_upload_session_finish := λ _ _ _ _, Raises OtherException
|}.

(** A store that holds nothing until the first upload succeeds. *)
Definition is_upload (c : call) : bool :=
  match c with
  | FilesUpload _ _ _ | SessionFinish _ _ _ => true
  | _ => false
  end.

Definition dbx_empty_at_first (later : file_data) : Dropbox := {|
  users_get_current_account := λ _, Returns ();
  files_download_to_file := λ log _ _,
    if existsb is_upload log then Returns later
    else Raises (ApiError (path not_found));
  files_upload := λ _ _ _ _, Returns ();
  files_upload_session_start := λ _ _, Returns "session-1";
  files_upload_session_append_v2 := λ _ _ _, Returns ();
  files_upload_session_finish := λ _ _ _ _, Returns ()
|}.

(** [main] run on the entries themselves, as [changed_files.split(',')]
    gives them. *)
Definition main_entries (tar_size : compression → list (string * file_data) → Z)
    (DROPBOX_ACCESS_TOKEN : option string) (dropbox_Dropbox : string → Dropbox)
    (entries : list string) (dropbox_path : string) : M unit :=
  if negb (truthy DROPBOX_ACCESS_TOKEN) then sys_exit 1
  else
    dbx ← initialize_dropbox dropbox_Dropbox (default "" DROPBOX_ACCESS_TOKEN);
    for_each entries (main_body tar_size dbx dropbox_path).

(** ** Reading the log of remote calls *)

Definition call_chunk (c : call) : option chunk :=
  match c with
  | FilesUpload f _ _ | SessionStart f | SessionAppend f _
  | SessionFinish f _ _ => Some f
  | _ => None
  end.

Definition call_cursor (c : call) : option UploadSessionCursor :=
  match c with
  | SessionAppend _ cursor | SessionFinish _ cursor _ => Some cursor
  | _ => None
  end.

Definition is_session_start (c : call) : bool :=
  match c with SessionStart _ => true | _ => false end.

Definition is_session_append (c : call) : bool :=
  match c with SessionAppend _ _ => true | _ => false end.

Definition is_session_finish (c : call) : bool :=
  match c with SessionFinish _ _ _ => true | _ => false end.

Definition is_files_upload (c : call) : bool :=
  match c with FilesUpload _ _ _ => true | _ => false end.

(** Bytes of the local file consumed by the calls of a log. *)
Definition bytes_read (l : list call) : Z :=
  foldr (λ c n, from_option chunk_len 0 (call_chunk c) + n) 0 l.

Definition count_calls (p : call → bool) (l : list call) : nat :=
  length (filter (λ c, p c = true) l).

(** The calls a session makes from position [pos] of a file of [file_size]
    bytes when every call is accepted: [n] appends of a full chunk, then the
    finish with what is left. *)
Fixpoint session_plan (n : nat) (sid : string) (commit : CommitInfo)
    (file_size pos : Z) : list call :=
  match n with
  | O => [SessionFinish (Chunk pos (file_size - pos)) (Cursor sid pos) commit]
  | S n' =>
      SessionAppend (Chunk pos CHUNK_SIZE) (Cursor sid pos)
      :: session_plan n' sid commit file_size (pos + CHUNK_SIZE)
  end.

Definition appends_needed (file_size pos : Z) : nat :=
  Z.to_nat ((file_size - pos - 1) / CHUNK_SIZE).

(** All the calls of a session that uploads [file_size] bytes to
    [dropbox_path] under the identifier [sid]. *)
Definition session_calls (sid dropbox_path : string) (file_size : Z) : list call :=
  SessionStart (Chunk 0 CHUNK_SIZE)
  :: session_plan (appends_needed file_size CHUNK_SIZE) sid
       (Commit dropbox_path overwrite) file_size CHUNK_SIZE.

(** A store that accepts whatever an upload session sends. *)
Definition accepts_sessions (dbx : Dropbox) : Prop :=
  (∀ log f, ∃ sid, files_upload_session_start dbx log f = Returns sid) ∧
  (∀ log f cursor, files_upload_session_append_v2 dbx log f cursor = Returns ()) ∧
  (∀ log f cursor commit,
     files_upload_session_finish dbx log f cursor commit = Returns ()).

(** ** Notions used in the proofs *)

(** What a run of the loop adds to the log: the whole plan when it returns,
    the plan up to the call that raised otherwise. *)
Definition session_loop_post (commit : CommitInfo) (f : stream)
    (cursor : UploadSessionCursor) (w : world)
    (r : outcome unit * world) : Prop :=
  let plan := if decide (tell f < size f)
              then session_plan (appends_needed (size f) (tell f))
                     (session_id cursor) commit (size f) (tell f)
              else [] in
  ∃ new,
    calls r.2 = calls w ++ new ∧
    fs r.2 = fs w ∧
    ((r.1 = Ret () ∧ new = plan) ∨
     (∃ e, r.1 = Raise e ∧ new `prefix_of` plan ∧ new ≠ [])).

(** A computation whose every [sys.exit] gives status 1. *)
Definition exits_with_1 {A} (m : M A) : Prop :=
  ∀ w code, (m w).1 = Exit code → code = 1.

(** Unfolds the sequencing of computations down to the world they act on. *)
Ltac run_step :=
  progress (unfold mbind, M_bind, mret, M_ret, sys_exit, raise, truncate,
            write_file, read_file, tarfile_open_r, tarfile_close_w,
            os_path_exists, os_remove; simpl).
Ltac run := repeat run_step.

(** ** Statements of the specification that are compared with the code *)

(** "With no existing archive the result has exactly one member, named by
    the new file's base name, with that file's bytes", for one world and one
    pair of paths. *)
Definition no_archive_one_member (w : world)
    (new_file_path dropbox_path : string) : Prop :=
  ∀ d, fs w !! new_file_path = Some d →
  ∃ p w' c,
    update_master_tar None new_file_path dropbox_path w = (Ret p, w') ∧
    fs w' !! p = Some (Tar c [(os_path.basename new_file_path, d)]).

(** "The number of append calls is floor((S - firstChunk)/C) and the final
    chunk size is S minus the cursor, at most C", for a file of [file_size]
    bytes and the log of the session that uploaded it. *)
Definition session_counts_as_specified (file_size : Z) (log : list call) : Prop :=
  Z.of_nat (count_calls is_session_append log)
    = (file_size - CHUNK_SIZE) / CHUNK_SIZE ∧
  ∃ f cursor commit,
    last log = Some (SessionFinish f cursor commit) ∧
    chunk_len f = file_size - offset cursor ∧
    chunk_len f ≤ CHUNK_SIZE.

(** A file of exactly two chunks, uploaded to a store that accepts it. *)
Definition two_chunks_upload : outcome unit * world :=
  upload_to_dropbox (λ _ _, 2 * CHUNK_SIZE) (dbx_accepting None)
    "/tmp/temp_master.tar" "/master.tar"
    (World {[ "/tmp/temp_master.tar" := Tar Uncompressed [] ]} []).

(** "The fetched archive, if one was downloaded, and the merged archive are
    deleted when the cycle is over, whether the upload succeeded or failed",
    for the cycle of one entry. *)
Definition cycle_removes_archives
    (tar_size : compression → list (string * file_data) → Z) (dbx : Dropbox)
    (dropbox_path file_path : string) (w : world) : Prop :=
  ∀ master_path w1 updated_path w2,
    download_from_dropbox dbx dropbox_path w = (Ret master_path, w1) →
    update_master_tar master_path (str_strip file_path) dropbox_path w1
      = (Ret updated_path, w2) →
    let r := main_body tar_size dbx dropbox_path file_path w in
    (∀ p, master_path = Some p → fs r.2 !! p = None) ∧
    fs r.2 !! updated_path = None.

(** "A run whose input list holds a path with an unsupported suffix ends
    with a non-zero status before any remote call is made and leaves no
    local temporary file behind." *)
Definition aborts_before_any_call
    (tar_size : compression → list (string * file_data) → Z)
    (token : option string) (client : string → Dropbox)
    (changed_files dropbox_path : string) (w : world) : Prop :=
  (∃ entry, entry ∈ str_split "," changed_files ∧ str_strip entry ≠ "" ∧
            str_endswith_any (str_strip entry) supported_suffixes = false) →
  let r := main tar_size token client changed_files dropbox_path w in
  exit_status r.1 ≠ 0 ∧ calls r.2 = calls w ∧ fs r.2 = fs w.

(** ** Sample files, sizes and worlds *)

Definition sample_fs : gmap string file_data :=
  {[ "/work/b.txt" := Bytes ["n"%byte; "e"%byte; "w"%byte];
     "/tmp/master.tar" :=
       Tar Gzip [("a.txt", Bytes ["a"%byte]); ("b.txt", Bytes ["o"%byte])] ]}.

Definition small_tar : compression → list (string * file_data) → Z :=
  λ _ _, 10240.

Definition large_tar : compression → list (string * file_data) → Z :=
  λ _ _, 10 * 1024 * 1024.

Definition work_fs : gmap string file_data :=
  {[ "/work/a.tar" := Tar Uncompressed [("x", Bytes ["x"%byte])] ]}.

Definition remote_master : file_data :=
  Tar Gzip [("a.txt", Bytes ["a"%byte]); ("b.txt", Bytes ["o"%byte])].

(** The world after the fetch, and after the merge, of the cycle of
    " /work/a.tar" against a store that holds [remote_master]. *)
Definition cycle_fetched : world :=
  (download_from_dropbox (dbx_accepting (Some remote_master)) "/master.tar"
     (World work_fs [])).2.

Definition cycle_merged : world :=
  (update_master_tar (Some "/tmp/master.tar") "/work/a.tar" "/master.tar"
     cycle_fetched).2.

(** A run of the merge whose new member file sits at the output path, next
    to an empty master archive. *)
Definition output_as_input_path : string := "/tmp/temp_master.tar".

Definition output_as_input : world :=
  World {[ output_as_input_path := Bytes ["x"%byte];
           "/tmp/master.tar" := Tar Uncompressed [] ]} [].







(** The store accepts the call [c] made when the log is [log]. *)
Definition accepted (dbx : Dropbox) (log : list call) (c : call) : Prop :=
  match c with
  | UsersGetCurrentAccount => users_get_current_account dbx log = Returns ()
  | FilesDownloadToFile download_path dropbox_path =>
      ∃ d, files_download_to_file dbx log download_path dropbox_path = Returns d
  | FilesUpload f dropbox_path mode =>
      files_upload dbx log f dropbox_path mode = Returns ()
  | SessionStart f => ∃ sid, files_upload_session_start dbx log f = Returns sid
  | SessionAppend f cursor =>
      files_upload_session_append_v2 dbx log f cursor = Returns ()
  | SessionFinish f cursor commit =>
      files_upload_session_finish dbx log f cursor commit = Returns ()
  end.

(** The calls [new], made from the log [log] on, stop at the first refusal:
    every call followed by another was accepted, and the last one was
    accepted exactly when [returned] holds. *)
Definition stops_at_refusal (dbx : Dropbox) (log new : list call)
    (returned : Prop) : Prop :=
  ∀ pre c post, new = pre ++ c :: post →
    (post ≠ [] → accepted dbx (log ++ pre) c) ∧
    (post = [] → (accepted dbx (log ++ pre) c ↔ returned)).

(** Closes the cases of a statement on what a merge may change. *)
Ltac solve_effects :=
  simpl; split; [done|];
  split; [intros p Hp; by rewrite ?lookup_insert_ne by done|];
  split; [done|];
  intros out Hout;
  first [ done
        | injection Hout as <-; split; [done|];
          rewrite lookup_insert_eq; by eexists ].

(** ** The script on sample inputs *)

Example basename_ex : os_path.basename "/work/dir/b.tar.gz" = "b.tar.gz".
Proof. reflexivity. Qed.

Example temp_tar_path_ex : temp_tar_path "/Bots_V3_splunkapps.tar" = "/tmp/temp_Bots_V3_splunkapps.tar".
Proof. reflexivity. Qed.

Example split_ex : str_split "," "a.tar, b.tgz,,c" = ["a.tar"; " b.tgz"; ""; "c"].
Proof. reflexivity. Qed.

Example strip_ex : str_strip "  a b.tgz  " = "a b.tgz".
Proof. reflexivity. Qed.

Example endswith_ex :
  str_endswith_any "x.tar.gz" [".tar.gz"; ".tgz"; ".tar"] = true ∧
  str_endswith_any "x.zip" [".tar.gz"; ".tgz"; ".tar"] = false.
Proof. split; reflexivity. Qed.

Example update_ex :
  let r := update_master_tar (Some "/tmp/master.tar") "/work/b.txt" "/master.tar"
             (World sample_fs []) in
  r.1 = Ret "/tmp/temp_master.tar" ∧
  fs r.2 !! "/tmp/temp_master.tar" =
    Some (Tar Uncompressed [("a.txt", Bytes ["a"%byte]);
                            ("b.txt", Bytes ["n"%byte; "e"%byte; "w"%byte])]).
Proof. vm_compute. split; reflexivity. Qed.

Example main_ex :
  let r := main small_tar (Some "token") (λ _, dbx_accepting None)
             "/work/a.tar" "/master.tar" (World work_fs []) in
  r.1 = Ret () ∧
  calls r.2 = [UsersGetCurrentAccount;
               FilesDownloadToFile "/tmp/master.tar" "/master.tar";
               FilesUpload (Chunk 0 10240) "/master.tar" overwrite].
Proof. vm_compute. split; reflexivity. Qed.

Example main_large_ex :
  let r := main large_tar (Some "token") (λ _, dbx_accepting None)
             "/work/a.tar" "/master.tar" (World work_fs []) in
  r.1 = Ret () ∧
  calls r.2 = [UsersGetCurrentAccount;
               FilesDownloadToFile "/tmp/master.tar" "/master.tar";
               SessionStart (Chunk 0 4194304);
               SessionAppend (Chunk 4194304 4194304) (Cursor "session-1" 4194304);
               SessionFinish (Chunk 8388608 2097152) (Cursor "session-1" 8388608)
                 (Commit "/master.tar" overwrite)].
Proof. vm_compute. split; reflexivity. Qed.

Example main_two_entries_ex :
  let r := main small_tar (Some "token") (λ _, dbx_empty_at_first remote_master)
             "/work/a.tar, ,/work/b.zip,/work/c.tar" "/master.tar"
             (World work_fs []) in
  r.1 = Exit 1 ∧
  calls r.2 = [UsersGetCurrentAccount;
               FilesDownloadToFile "/tmp/master.tar" "/master.tar";
               FilesUpload (Chunk 0 10240) "/master.tar" overwrite] ∧
  fs r.2 !! "/tmp/master.tar" = Some empty_file ∧
  fs r.2 !! "/tmp/temp_master.tar" = None.
Proof. vm_compute. repeat split; reflexivity. Qed.

(** Names and paths the theorems speak for, and some they leave out. *)
Example file_name_ex :
  file_name "b.txt" = true ∧ file_name "dir/x.txt" = false ∧
  file_name "./b.txt" = false ∧ file_name ".." = false ∧ file_name "" = false.
Proof. repeat split. Qed.

Example flat_archive_ex :
  flat_archive [("a.txt", Bytes []); ("b.txt", Bytes [])] = true ∧
  flat_archive [("b.txt/inner", Bytes [])] = false ∧
  flat_archive [("../x", Bytes [])] = false.
Proof. repeat split. Qed.

Example normal_path_ex :
  normal_path "/tmp/temp_master.tar" = true ∧
  normal_path "/tmp/./temp_master.tar" = false ∧
  normal_path "temp_master.tar" = false ∧
  normal_path "/work/a.tar/" = false.
Proof. repeat split. Qed.

Example basename_of_folder_ex :
  os_path.basename "/backups/" = "" ∧
  file_name (os_path.basename "/backups/") = false ∧
  remote_file "/backups/" = false ∧
  remote_file "/master.tar" = true ∧
  remote_file "/Bots_V3_splunkapps.tar" = true.
Proof. repeat split. Qed.

Example str_isascii_ex :
  str_isascii " /work/a.tar " = true ∧
  str_isascii ("/work/a.tar" +:+ nbsp) = false.
Proof. repeat split. Qed.

(** ** The merge: what [update_master_tar] leaves in the output archive *)



Lemma repack_listdir (tmpdir : gmap string file_data) :
  omap (λ item, (item,.) <$> tmpdir !! item) (os_listdir tmpdir)
  = map_to_list tmpdir.
Proof.
  unfold os_listdir.
  assert (H : ∀ l : list (string * file_data),
             (∀ k v, (k, v) ∈ l → tmpdir !! k = Some v) →
             omap (λ item, (item,.) <$> tmpdir !! item) l.*1 = l).
  { induction l as [|[k v] l IH]; intros Hl; [done|].
    simpl. rewrite (Hl k v) by left. simpl. f_equal.
    apply IH. intros k' v' Hin. apply Hl. by right. }
  apply H. intros k v. apply elem_of_map_to_list.
Qed.

Lemma temp_tar_path_truthy dropbox_path :
  truthy (Some (temp_tar_path dropbox_path)) = true.
Proof. reflexivity. Qed.

(** The branch for an existing archive, run to its end. *)
Lemma update_master_tar_existing w master new_file_path dropbox_path c members d :
  master ≠ "" →
  fs w !! master = Some (Tar c members) →
  fs w !! new_file_path = Some d →
  update_master_tar (Some master) new_file_path dropbox_path w =
    (Ret (temp_tar_path dropbox_path),
     World (<[temp_tar_path dropbox_path :=
               Tar Uncompressed
                 (merged_members members (os_path.basename new_file_path) d)]>
              (fs w))
           (calls w)).
Proof.
  intros Hne Hm Hn. unfold update_master_tar.
  assert (truthy (Some master) = true) as ->.
  { simpl. destruct (String.eqb_spec master ""); [done|reflexivity]. }
  run. rewrite Hm. run. rewrite Hn. run.
  rewrite repack_listdir, insert_insert_eq. unfold merged_members.
  case_bool_decide; [by rewrite insert_delete_eq | done].
Qed.

(** The branch without an archive, run to its end. *)
Lemma update_master_tar_fresh w master new_file_path dropbox_path :
  truthy master = false →
  update_master_tar master new_file_path dropbox_path w =
    if decide (new_file_path = temp_tar_path dropbox_path) then
      (Ret (temp_tar_path dropbox_path),
       World (<[temp_tar_path dropbox_path := Tar Uncompressed []]> (fs w))
             (calls w))
    else
      match fs w !! new_file_path with
      | Some d =>
          (Ret (temp_tar_path dropbox_path),
           World (<[temp_tar_path dropbox_path :=
                     Tar Uncompressed [(os_path.basename new_file_path, d)]]>
                    (fs w))
                 (calls w))
      | None =>
          (Raise OSError,
           World (<[temp_tar_path dropbox_path := empty_file]> (fs w)) (calls w))
      end.
Proof.
  intros Hm. unfold update_master_tar, tar_add. rewrite Hm. run.
  destruct (decide (new_file_path = temp_tar_path dropbox_path)) as [Heq|Hneq].
  - run. by rewrite insert_insert_eq.
  - run. rewrite lookup_insert_ne by done.
    destruct (fs w !! new_file_path); run; [|done].
    by rewrite insert_insert_eq.
Qed.















(** ** The upload session *)

Lemma CHUNK_SIZE_pos : 0 < CHUNK_SIZE.
Proof. reflexivity. Qed.

Lemma appends_needed_last file_size pos :
  0 < file_size - pos ≤ CHUNK_SIZE → appends_needed file_size pos = 0%nat.
Proof.
  intros H. unfold appends_needed.
  rewrite Z.div_small by lia. reflexivity.
Qed.

Lemma appends_needed_more file_size pos :
  CHUNK_SIZE < file_size - pos →
  appends_needed file_size pos = S (appends_needed file_size (pos + CHUNK_SIZE)).
Proof.
  intros H. unfold appends_needed.
  replace (file_size - pos - 1)
    with (file_size - (pos + CHUNK_SIZE) - 1 + 1 * CHUNK_SIZE) by lia.
  pose proof CHUNK_SIZE_pos.
  rewrite Z.div_add by lia.
  assert (0 ≤ (file_size - (pos + CHUNK_SIZE) - 1) / CHUNK_SIZE)
    by (apply Z.div_pos; lia).
  lia.
Qed.

Lemma session_loop_spec dbx commit f cursor w :
  (tell f < size f → offset cursor = tell f) →
  session_loop_post commit f cursor w (session_loop dbx commit f cursor w).
Proof.
  funelim (session_loop dbx commit f cursor w); intros Hoff;
    unfold session_loop_post; pose proof CHUNK_SIZE_pos as HC.
  - (* the file is exhausted *)
    rewrite decide_False by done. exists []. simpl.
    rewrite app_nil_r. auto.
  - (* last chunk: finish *)
    rewrite decide_True by done.
    rewrite appends_needed_last by lia. simpl.
    assert (Hread : Z.max 0 (Z.min CHUNK_SIZE (size f - tell f)) = size f - tell f)
      by lia.
    unfold dbx_files_upload_session_finish, invoke. simpl. rewrite Hread.
    destruct cursor as [sid off]. simpl in *.
    assert (off = tell f) as -> by (by apply Hoff). clear Hoff.
    destruct (files_upload_session_finish dbx _ _ _ _) as [[]|e].
    + match goal with
      | IH : context [session_loop_post] |- _ =>
          destruct (IH (Ret ()) (World (fs w)
                     (calls w ++ [SessionFinish (Chunk (tell f) (size f - tell f))
                                    (Cursor sid (tell f)) commit])) ())
            as (new & Hcalls & Hfs & Hres)
      end.
      { simpl. lia. }
      simpl in Hcalls, Hfs, Hres. rewrite Hread in Hcalls, Hfs, Hres.
      rewrite decide_False in Hres by (simpl; lia).
      destruct Hres as [[Hret ->]|(e & _ & Hpre & Hne)].
      * eexists. rewrite Hcalls, Hfs, Hret, app_nil_r. auto.
      * apply prefix_nil_inv in Hpre. done.
    + eexists. simpl. split; [done|]. split; [done|]. right.
      exists e. by repeat split.
  - (* a full chunk: append, then advance the cursor *)
    rewrite decide_True by done.
    rewrite appends_needed_more by lia. simpl.
    assert (Hread : Z.max 0 (Z.min CHUNK_SIZE (size f - tell f)) = CHUNK_SIZE)
      by lia.
    unfold dbx_files_upload_session_append_v2, invoke. simpl. rewrite Hread.
    destruct cursor as [sid off]. simpl in *.
    assert (off = tell f) as -> by (by apply Hoff). clear Hoff.
    destruct (files_upload_session_append_v2 dbx _ _ _) as [[]|e].
    + match goal with
      | IH : context [session_loop_post] |- _ =>
          destruct (IH (Ret ()) (World (fs w)
                     (calls w ++ [SessionAppend (Chunk (tell f) CHUNK_SIZE)
                                    (Cursor sid (tell f))])) ())
            as (new & Hcalls & Hfs & Hres)
      end.
      { done. }
      simpl in Hcalls, Hfs, Hres. rewrite Hread in Hcalls, Hfs, Hres.
      rewrite decide_True in Hres by (simpl; lia).
      exists (SessionAppend (Chunk (tell f) CHUNK_SIZE) (Cursor sid (tell f)) :: new).
      rewrite Hcalls, Hfs, <- (assoc_L (++)). simpl.
      split; [done|]. split; [done|].
      destruct Hres as [[Hret ->]|(e & Hraise & Hpre & Hne)].
      * left. by split.
      * right. exists e. split; [done|]. split; [|done].
        by apply prefix_cons.
    + eexists. simpl. split; [done|]. split; [done|]. right.
      exists e. split; [done|]. split; [|done].
      apply prefix_cons, prefix_nil.
Qed.

Lemma session_loop_accepted dbx commit f cursor w :
  accepts_sessions dbx →
  (session_loop dbx commit f cursor w).1 = Ret ().
Proof.
  intros (_ & Happend & Hfinish).
  funelim (session_loop dbx commit f cursor w); [done| |].
  - unfold dbx_files_upload_session_finish, invoke. rewrite Hfinish.
    by apply (H (Ret ()) _ ()).
  - unfold dbx_files_upload_session_append_v2, invoke. rewrite Happend.
    by apply (H (Ret ()) _ ()).
Qed.

(** *** The plan, call by call *)

Lemma session_plan_length n sid commit file_size pos :
  length (session_plan n sid commit file_size pos) = S n.
Proof. revert pos. induction n; intros; simpl; [done | by rewrite IHn]. Qed.

Lemma session_plan_lookup n sid commit file_size pos (i : nat) (c : call) :
  session_plan n sid commit file_size pos !! i = Some c →
  ((i < n)%nat ∧
   c = SessionAppend (Chunk (pos + Z.of_nat i * CHUNK_SIZE) CHUNK_SIZE)
         (Cursor sid (pos + Z.of_nat i * CHUNK_SIZE))) ∨
  (i = n ∧
   c = SessionFinish
         (Chunk (pos + Z.of_nat n * CHUNK_SIZE) (file_size - (pos + Z.of_nat n * CHUNK_SIZE)))
         (Cursor sid (pos + Z.of_nat n * CHUNK_SIZE)) commit).
Proof.
  revert pos i. induction n as [|n IH]; intros pos [|i] Hi; simpl in Hi.
  - right. injection Hi as <-. split; [done|]. do 2 f_equal; lia.
  - done.
  - left. injection Hi as <-. split; [lia|]. do 2 f_equal; lia.
  - destruct (IH _ _ Hi) as [[Hlt ->]|[-> ->]].
    + left. split; [lia|]. do 2 f_equal; lia.
    + right. split; [done|]. do 2 f_equal; lia.
Qed.

Lemma bytes_read_take_plan n sid commit file_size pos (i : nat) :
  (i ≤ n)%nat →
  bytes_read (take i (session_plan n sid commit file_size pos))
    = Z.of_nat i * CHUNK_SIZE.
Proof.
  revert pos i. induction n as [|n IH]; intros pos [|i] Hi; simpl; try lia.
  rewrite IH by lia. lia.
Qed.

Lemma count_append_plan n sid commit file_size pos :
  count_calls is_session_append (session_plan n sid commit file_size pos) = n.
Proof.
  revert pos. unfold count_calls. induction n as [|n IH]; intros pos; [done|].
  cbn [session_plan]. rewrite filter_cons_True by done. simpl. by rewrite IH.
Qed.

Lemma count_finish_plan n sid commit file_size pos :
  count_calls is_session_finish (session_plan n sid commit file_size pos) = 1%nat.
Proof.
  revert pos. unfold count_calls. induction n as [|n IH]; intros pos; [done|].
  cbn [session_plan]. rewrite filter_cons_False by done. by rewrite IH.
Qed.

(** Where the plan of a file larger than one chunk ends. *)
Lemma appends_needed_bounds file_size :
  CHUNK_SIZE < file_size →
  let n := appends_needed file_size CHUNK_SIZE in
  Z.of_nat n = (file_size - CHUNK_SIZE - 1) / CHUNK_SIZE ∧
  CHUNK_SIZE + Z.of_nat n * CHUNK_SIZE < file_size ≤ CHUNK_SIZE + (Z.of_nat n + 1) * CHUNK_SIZE.
Proof.
  intros HS n. pose proof CHUNK_SIZE_pos as HC.
  assert (Hn : Z.of_nat n = (file_size - CHUNK_SIZE - 1) / CHUNK_SIZE).
  { unfold n, appends_needed. rewrite Z2Nat.id; [done|]. apply Z.div_pos; lia. }
  split; [done|]. rewrite Hn.
  pose proof (Z.div_mod (file_size - CHUNK_SIZE - 1) CHUNK_SIZE ltac:(lia)).
  pose proof (Z.mod_pos_bound (file_size - CHUNK_SIZE - 1) CHUNK_SIZE HC).
  nia.
Qed.

(** Every call of a session log, by its place in the log. *)
Lemma session_calls_lookup sid dropbox_path file_size (l : list call) (i : nat)
    (c : call) :
  l `prefix_of` session_calls sid dropbox_path file_size →
  l !! i = Some c →
  let n := appends_needed file_size CHUNK_SIZE in
  bytes_read (take i l) = Z.of_nat i * CHUNK_SIZE ∧
  ((i = 0%nat ∧ c = SessionStart (Chunk 0 CHUNK_SIZE)) ∨
   ((0 < i ≤ n)%nat ∧
    c = SessionAppend (Chunk (Z.of_nat i * CHUNK_SIZE) CHUNK_SIZE)
          (Cursor sid (Z.of_nat i * CHUNK_SIZE))) ∨
   (i = S n ∧ length l = S (S n) ∧
    c = SessionFinish (Chunk (Z.of_nat i * CHUNK_SIZE) (file_size - Z.of_nat i * CHUNK_SIZE))
          (Cursor sid (Z.of_nat i * CHUNK_SIZE)) (Commit dropbox_path overwrite))).
Proof.
  intros Hpre Hi n.
  assert (Hlen : (i < length l)%nat) by (by eapply lookup_lt_Some).
  pose proof (prefix_length _ _ Hpre) as Hle.
  pose proof (prefix_lookup_Some _ _ _ _ Hi Hpre) as Hfull.
  destruct Hpre as [k Hk].
  assert (Htake : take i l = take i (session_calls sid dropbox_path file_size)).
  { rewrite Hk, take_app_le by lia. done. }
  rewrite Htake. unfold session_calls in *. simpl in Hle.
  rewrite session_plan_length in Hle. fold n in Hle, Hfull |- *.
  destruct i as [|i]; simpl in *.
  - split; [done|]. left. split; [done|]. congruence.
  - rewrite bytes_read_take_plan by lia. split; [lia|].
    destruct (session_plan_lookup _ _ _ _ _ _ _ Hfull) as [[Hlt ->]|[-> ->]].
    + right; left. split; [lia|]. do 2 f_equal; lia.
    + right; right. split; [done|]. split; [lia|]. do 2 f_equal; lia.
Qed.

Section transport.

Variable tar_size : compression → list (string * file_data) → Z.

(** A file that cannot be read is reported and ends the run. *)
Lemma upload_to_dropbox_missing dbx w local_path dropbox_path :
  fs w !! local_path = None →
  upload_to_dropbox tar_size dbx local_path dropbox_path w = (Exit 1, w).
Proof.
  intros Hf. unfold upload_to_dropbox, try_except, os_path_getsize.
  run. by rewrite Hf.
Qed.

(** The branch for small files, run to its end. *)
Lemma upload_to_dropbox_small dbx w local_path dropbox_path d :
  fs w !! local_path = Some d →
  st_size tar_size d ≤ CHUNK_SIZE →
  let data := Chunk 0 (Z.max 0 (st_size tar_size d)) in
  upload_to_dropbox tar_size dbx local_path dropbox_path w =
    (match files_upload dbx (calls w) data dropbox_path overwrite with
     | Returns _ => Ret ()
     | Raises _ => Exit 1
     end,
     World (fs w) (calls w ++ [FilesUpload data dropbox_path overwrite])).
Proof.
  intros Hf Hsize data.
  unfold upload_to_dropbox, try_except, os_path_getsize, open_rb.
  run. rewrite Hf. run. rewrite bool_decide_true by done. run. rewrite Hf.
  run. unfold dbx_files_upload, invoke. simpl.
  rewrite Z.sub_0_r, Z.min_id. fold data.
  by destruct (files_upload dbx _ _ _ _) as [[]|e].
Qed.

(** The session branch, run to its end: the log grows by the calls of a
    session, all of them when the upload returns, those up to the refused
    one when it exits. *)
Lemma upload_to_dropbox_session dbx w local_path dropbox_path d :
  fs w !! local_path = Some d →
  CHUNK_SIZE < st_size tar_size d →
  ∃ sid new,
    let r := upload_to_dropbox tar_size dbx local_path dropbox_path w in
    calls r.2 = calls w ++ new ∧
    fs r.2 = fs w ∧
    new `prefix_of` session_calls sid dropbox_path (st_size tar_size d) ∧
    new ≠ [] ∧
    ((r.1 = Ret () ∧ new = session_calls sid dropbox_path (st_size tar_size d))
     ∨ r.1 = Exit 1) ∧
    (accepts_sessions dbx → r.1 = Ret ()).
Proof.
  intros Hf Hsize. pose proof CHUNK_SIZE_pos as HC.
  unfold upload_to_dropbox, try_except, os_path_getsize, open_rb.
  run. rewrite Hf. run. rewrite bool_decide_false by lia. run. rewrite Hf.
  run. unfold dbx_files_upload_session_start, invoke. simpl.
  assert (Hread : Z.max 0 (Z.min CHUNK_SIZE (st_size tar_size d - 0)) = CHUNK_SIZE)
    by lia.
  rewrite !Hread. change (0 + CHUNK_SIZE) with CHUNK_SIZE.
  destruct (files_upload_session_start dbx _ _) as [sid|e] eqn:Hstart.
  - exists sid.
    set (w1 := World (fs w) (calls w ++ [SessionStart (Chunk 0 CHUNK_SIZE)])).
    set (f := Stream CHUNK_SIZE (st_size tar_size d)).
    set (cursor := Cursor sid CHUNK_SIZE).
    set (commit := Commit dropbox_path overwrite).
    destruct (session_loop_spec dbx commit f cursor w1 ltac:(done))
      as (new & Hcalls & Hfs & Hres).
    pose proof (session_loop_accepted dbx commit f cursor w1) as Hacc.
    simpl in Hres. rewrite decide_True in Hres by (simpl; lia).
    destruct (session_loop dbx commit f cursor w1) as [o w2].
    simpl in *. exists (SessionStart (Chunk 0 CHUNK_SIZE) :: new).
    unfold session_calls. fold commit.
    destruct Hres as [[-> ->]|(e & -> & Hpre & Hne)]; simpl;
      rewrite Hcalls, Hfs, <- (assoc_L (++)); simpl.
    + repeat split; auto.
    + repeat split; auto. { by apply prefix_cons. }
      intros H. by specialize (Hacc H).
  - exists "", [SessionStart (Chunk 0 CHUNK_SIZE)]. simpl.
    repeat split; auto.
    + apply prefix_cons, prefix_nil.
    + intros (Hs & _). destruct (Hs (calls w) (Chunk 0 CHUNK_SIZE)) as [sid Hsid].
      congruence.
Qed.

End transport.

(** ** The fetch *)

Lemma download_from_dropbox_run dbx dropbox_path w :
  let local_path := local_path_of dropbox_path in
  let after d :=
    World (<[local_path := d]> (fs w))
          (calls w ++ [FilesDownloadToFile local_path dropbox_path]) in
  download_from_dropbox dbx dropbox_path w =
    match files_download_to_file dbx (calls w) local_path dropbox_path with
    | Returns d => (Ret (Some local_path), after d)
    | Raises (ApiError (path not_found)) => (Ret None, after empty_file)
    | Raises (ApiError _) => (Exit 1, after empty_file)
    | Raises e => (Raise e, after empty_file)
    end.
Proof.
  intros local_path after.
  unfold download_from_dropbox, try_except, dbx_files_download_to_file, invoke.
  run. fold local_path.
  destruct (files_download_to_file dbx _ _ _) as [d|[|[[]| |]| | |]]; run;
    try done.
  unfold after. by rewrite insert_insert_eq.
Qed.

Lemma local_path_of_truthy dropbox_path :
  truthy (Some (local_path_of dropbox_path)) = true.
Proof.
  unfold local_path_of, os_path.join, str_startswith.
  destruct (os_path.basename dropbox_path) as [|c b]; [done|].
  by destruct (String.prefix "/" (String c b)).
Qed.

(** ** Exit codes: every [sys.exit] of the script gives status 1 *)

Lemma exits_with_1_bind {A B} (m : M A) (k : A → M B) :
  exits_with_1 m → (∀ a, exits_with_1 (k a)) → exits_with_1 (m ≫= k).
Proof.
  intros Hm Hk w code. unfold mbind, M_bind.
  specialize (Hm w). destruct (m w) as [[a|c|e] w']; simpl in *.
  - apply Hk.
  - intros [= <-]. by apply Hm.
  - done.
Qed.

Lemma exits_with_1_try {A} (body : M A) handler :
  exits_with_1 body →
  (∀ e h, handler e = Some h → exits_with_1 h) →
  exits_with_1 (try_except body handler).
Proof.
  intros Hb Hh w code. unfold try_except.
  specialize (Hb w). destruct (body w) as [[a|c|e] w']; simpl in *; [done|auto|].
  destruct (handler e) as [h|] eqn:He; [|done]. by eapply Hh.
Qed.

Lemma exits_with_1_ret {A} (a : A) : exits_with_1 (mret a).
Proof. by intros w code. Qed.

Lemma exits_with_1_sys_exit {A} : exits_with_1 (@sys_exit A 1).
Proof. intros w code [= <-]. done. Qed.

Lemma exits_with_1_invoke {A} c (answer : list call → result A) :
  exits_with_1 (invoke c answer).
Proof. intros w code. unfold invoke. by destruct (answer _). Qed.

Lemma exits_with_1_update_master_tar master new_file_path dropbox_path :
  exits_with_1 (update_master_tar master new_file_path dropbox_path).
Proof.
  intros w code. unfold update_master_tar, tar_add.
  destruct (truthy master); run.
  - destruct (fs w !! _) as [[]|]; run; try done.
    by destruct (fs w !! new_file_path).
  - case_decide; run; [done|].
    by destruct (_ !! new_file_path).
Qed.

Section orchestrator.

Variable tar_size : compression → list (string * file_data) → Z.

(** The upload touches no local file and either returns or exits with 1. *)
Lemma upload_to_dropbox_outcome dbx w local_path dropbox_path :
  let r := upload_to_dropbox tar_size dbx local_path dropbox_path w in
  fs r.2 = fs w ∧ (r.1 = Ret () ∨ r.1 = Exit 1).
Proof.
  intros r. unfold r. destruct (fs w !! local_path) as [d|] eqn:Hf.
  - destruct (decide (st_size tar_size d ≤ CHUNK_SIZE)).
    + rewrite (upload_to_dropbox_small _ _ _ _ _ d) by done. simpl.
      split; [done|]. destruct (files_upload dbx _ _ _ _); auto.
    + destruct (upload_to_dropbox_session tar_size dbx w local_path
                  dropbox_path d Hf ltac:(lia))
        as (sid & new & _ & Hfs & _ & _ & Hres & _).
      split; [done|]. tauto.
  - rewrite upload_to_dropbox_missing by done. auto.
Qed.

Lemma exits_with_1_upload dbx local_path dropbox_path :
  exits_with_1 (upload_to_dropbox tar_size dbx local_path dropbox_path).
Proof.
  intros w code Hexit.
  destruct (upload_to_dropbox_outcome dbx w local_path dropbox_path)
    as [_ [H|H]]; rewrite H in Hexit; congruence.
Qed.

Lemma exits_with_1_download dbx dropbox_path :
  exits_with_1 (download_from_dropbox dbx dropbox_path).
Proof.
  intros w code. rewrite download_from_dropbox_run.
  destruct (files_download_to_file dbx _ _ _) as [d|[|[[]| |]| | |]];
    simpl; congruence.
Qed.

Lemma remove_if_present_run path w :
  remove_if_present path w =
    (Ret (), if truthy path
             then World (delete (default "" path) (fs w)) (calls w)
             else w).
Proof.
  unfold remove_if_present. destruct (truthy path); [|done]. run.
  case_bool_decide as Hin.
  - destruct Hin as [d Hd]. run. by rewrite Hd.
  - run. destruct w as [files log]. simpl in *. f_equal. f_equal.
    symmetry. apply delete_id. by apply eq_None_not_Some.
Qed.

Lemma exits_with_1_for_each {A} (l : list A) body :
  (∀ x, exits_with_1 (body x)) → exits_with_1 (for_each l body).
Proof.
  intros Hb. induction l as [|x l IH]; simpl.
  - apply exits_with_1_ret.
  - apply exits_with_1_bind; auto.
Qed.

Lemma exits_with_1_main_body dbx dropbox_path file_path :
  exits_with_1 (main_body tar_size dbx dropbox_path file_path).
Proof.
  unfold main_body. destruct (String.eqb _ _); [apply exits_with_1_ret|].
  apply exits_with_1_bind.
  { unfold process_archive. destruct (str_endswith_any _ _);
      [apply exits_with_1_ret | apply exits_with_1_sys_exit]. }
  intros processed_path. apply exits_with_1_bind;
    [apply exits_with_1_download|].
  intros master_path. apply exits_with_1_bind;
    [apply exits_with_1_update_master_tar|].
  intros updated_path. apply exits_with_1_bind; [apply exits_with_1_upload|].
  intros _. apply exits_with_1_for_each. intros path w code.
  by rewrite remove_if_present_run.
Qed.


End orchestrator.

(** ** File names and normal paths: what the script derives from them *)

Lemma append_cons c s1 s2 : String c s1 +:+ s2 = String c (s1 +:+ s2).
Proof. reflexivity. Qed.






Lemma str_split_no_sep sep s :
  forallb (λ c, negb (Ascii.eqb c sep)) (list_ascii_of_string s) = true →
  str_split sep s = [s].
Proof.
  induction s as [|c s IH]; [done|]. simpl.
  intros [Hc Hs]%andb_true_iff. apply negb_true_iff in Hc. rewrite Hc.
  by rewrite IH.
Qed.

Lemma file_name_no_slash n :
  file_name n = true →
  forallb (λ c, negb (Ascii.eqb c "/")) (list_ascii_of_string n) = true.
Proof.
  unfold file_name. intros [_ Hall]%andb_true_iff.
  rewrite forallb_forall in *. intros c Hc.
  by destruct (andb_prop _ _ (Hall c Hc)).
Qed.


Lemma temp_tar_path_normal dropbox_path :
  remote_file dropbox_path = true →
  normal_path (temp_tar_path dropbox_path) = true.
Proof.
  intros [_ Hb]%andb_true_iff.
  change (temp_tar_path dropbox_path)
    with ("/tmp/" +:+ ("temp_" +:+ os_path.basename dropbox_path)).
  generalize dependent ("temp_" +:+ os_path.basename dropbox_path).
  intros n Hn. unfold normal_path. rewrite !append_cons. simpl.
  change ("" +:+ n) with n.
  rewrite (str_split_no_sep "/" n) by by apply file_name_no_slash.
  simpl. by rewrite Hn.
Qed.

Lemma remote_file_basename dropbox_path :
  remote_file dropbox_path = true →
  file_name (os_path.basename dropbox_path) = true.
Proof. by intros [? _]%andb_true_iff. Qed.

(** On ASCII input a blank entry is one made of ASCII white space only,
    which is what [str.strip] empties. *)
Lemma str_lstrip_blank s :
  str_lstrip s = "" ↔ forallb isspace (list_ascii_of_string s) = true.
Proof.
  induction s as [|c s IH]; [done|]. simpl.
  destruct (isspace c); [exact IH | done].
Qed.

(** ** Theorems on the merge engine *)





(** Away from its own output path the branch for no existing archive
    does what the specification says: the result is an archive of exactly
    one member, named by the file's base name and holding the file's bytes;
    no other local file changes. *)
Lemma update_master_tar_no_archive w master new_file_path dropbox_path d :
  truthy master = false →
  normal_path new_file_path = true →
  fs w !! new_file_path = Some d →
  remote_file dropbox_path = true →
  new_file_path ≠ temp_tar_path dropbox_path →
  ∃ w',
    update_master_tar master new_file_path dropbox_path w
      = (Ret (temp_tar_path dropbox_path), w') ∧
    fs w' !! temp_tar_path dropbox_path
      = Some (Tar Uncompressed [(os_path.basename new_file_path, d)]) ∧
    (∀ p, p ≠ temp_tar_path dropbox_path → fs w' !! p = fs w !! p) ∧
    calls w' = calls w.
Proof.
  intros Hm _ Hn _ Hne. rewrite update_master_tar_fresh by done.
  rewrite decide_False by done. rewrite Hn. eexists. split; [done|]. simpl.
  rewrite lookup_insert_eq. repeat split.
  intros p Hp. by rewrite lookup_insert_ne.
Qed.

(** C6: with no existing archive and the new member file at the output
    path, normal paths both, [update_master_tar] returns an archive of no
    member where the specification asks for one member holding the file's
    bytes, and the bytes are lost: the output is opened, and so emptied,
    before the file is read, and [tarfile] leaves the archive being written
    out of itself. The branch for an existing archive copies the file
    before it opens the output, and archives the same file under its base
    name. *)
Theorem update_master_tar_output_as_input :
  normal_path output_as_input_path = true ∧
  fs output_as_input !! output_as_input_path = Some (Bytes ["x"%byte]) ∧
  update_master_tar None output_as_input_path "/master.tar" output_as_input
    = (Ret output_as_input_path,
       World (<[output_as_input_path := Tar Uncompressed []]>
                (fs output_as_input)) []) ∧
  ¬ no_archive_one_member output_as_input output_as_input_path "/master.tar" ∧
  update_master_tar (Some "/tmp/master.tar") output_as_input_path "/master.tar"
    output_as_input
    = (Ret output_as_input_path,
       World (<[output_as_input_path :=
                  Tar Uncompressed [("temp_master.tar", Bytes ["x"%byte])]]>
                (fs output_as_input)) []).
Proof.
  split; [reflexivity|]. split; [reflexivity|]. split; [|split].
  - rewrite update_master_tar_fresh by done. by rewrite decide_True.
  - intros H.
    destruct (H (Bytes ["x"%byte]) eq_refl) as (p & w' & c & Hrun & Hout).
    rewrite update_master_tar_fresh in Hrun by done.
    rewrite decide_True in Hrun by done.
    injection Hrun as <- <-. simpl in Hout.
    rewrite lookup_insert_eq in Hout. discriminate.
  - rewrite (update_master_tar_existing _ _ _ _ Uncompressed []
               (Bytes ["x"%byte])) by done.
    reflexivity.
Qed.



(** ** Theorems on the chunked transport *)

Lemma session_plan_last n sid commit file_size pos :
  last (session_plan n sid commit file_size pos) =
    Some (SessionFinish
            (Chunk (pos + Z.of_nat n * CHUNK_SIZE)
                   (file_size - (pos + Z.of_nat n * CHUNK_SIZE)))
            (Cursor sid (pos + Z.of_nat n * CHUNK_SIZE)) commit).
Proof.
  revert pos. induction n as [|n IH]; intros pos.
  - simpl. repeat first [lia | progress f_equal].
  - cbn [session_plan]. rewrite last_cons, IH.
    repeat first [lia | progress f_equal].
Qed.

Lemma count_calls_app p l1 l2 :
  count_calls p (l1 ++ l2) = (count_calls p l1 + count_calls p l2)%nat.
Proof. unfold count_calls. by rewrite filter_app, length_app. Qed.

Lemma count_finish_session_calls sid dropbox_path file_size :
  count_calls is_session_finish (session_calls sid dropbox_path file_size) = 1%nat.
Proof.
  unfold session_calls, count_calls. rewrite filter_cons_False by done.
  apply count_finish_plan.
Qed.

Lemma count_files_upload_session_calls sid dropbox_path file_size :
  count_calls is_files_upload (session_calls sid dropbox_path file_size) = 0%nat.
Proof.
  unfold session_calls, count_calls. rewrite filter_cons_False by done.
  generalize (appends_needed file_size CHUNK_SIZE). intros n.
  generalize CHUNK_SIZE. revert n.
  induction n as [|n IH]; intros pos; [done|].
  cbn [session_plan]. rewrite filter_cons_False by done. apply IH.
Qed.

Section transport_theorems.

Variable tar_size : compression → list (string * file_data) → Z.

(** C2, as the code has it: a file of S > C bytes (C = 4 MiB) uploaded
    through a session that runs to its end sends a first chunk of C bytes,
    then floor((S - C - 1)/C) appends, and finishes with a chunk of S minus
    the cursor's offset bytes, between 1 and C. *)
Theorem session_append_count dbx w local_path dropbox_path d :
  fs w !! local_path = Some d →
  CHUNK_SIZE < st_size tar_size d →
  let file_size := st_size tar_size d in
  let r := upload_to_dropbox tar_size dbx local_path dropbox_path w in
  ∃ new,
    calls r.2 = calls w ++ new ∧
    (accepts_sessions dbx → r.1 = Ret ()) ∧
    (r.1 = Ret () →
     head new = Some (SessionStart (Chunk 0 CHUNK_SIZE)) ∧
     Z.of_nat (count_calls is_session_append new)
       = (file_size - CHUNK_SIZE - 1) / CHUNK_SIZE ∧
     ∃ f cursor commit,
       last new = Some (SessionFinish f cursor commit) ∧
       chunk_len f = file_size - offset cursor ∧
       0 < chunk_len f ≤ CHUNK_SIZE ∧
       offset cursor
         = CHUNK_SIZE
           + Z.of_nat (count_calls is_session_append new) * CHUNK_SIZE).
Proof.
  intros Hf Hsize file_size r.
  destruct (upload_to_dropbox_session tar_size dbx w local_path dropbox_path
              d Hf Hsize) as (sid & new & Hcalls & _ & _ & _ & Hres & Hacc).
  fold r file_size in Hcalls, Hres, Hacc |- *.
  exists new. split; [done|]. split; [done|]. intros Hret.
  destruct Hres as [[_ ->]|Hexit]; [|congruence].
  pose proof (appends_needed_bounds file_size Hsize) as [Hn Hbounds].
  unfold session_calls. split; [done|].
  assert (Hcount : ∀ l, count_calls is_session_append
                          (SessionStart (Chunk 0 CHUNK_SIZE) :: l)
                        = count_calls is_session_append l).
  { intros l. unfold count_calls. by rewrite filter_cons_False. }
  rewrite Hcount, count_append_plan. split; [done|].
  rewrite last_cons, session_plan_last. eexists _, _, _.
  split; [done|]. simpl. lia.
Qed.

(** C3: the first call of [upload_to_dropbox] is the single-shot upload
    exactly when the file has at most 4 MiB, and then it is the only call
    and carries the whole file; otherwise the first call opens a session
    and no single-shot upload follows. *)
Theorem upload_path_by_size dbx w local_path dropbox_path d :
  fs w !! local_path = Some d →
  let file_size := st_size tar_size d in
  let r := upload_to_dropbox tar_size dbx local_path dropbox_path w in
  ∃ c rest,
    calls r.2 = calls w ++ c :: rest ∧
    (is_files_upload c = true ↔ file_size ≤ 4 * 1024 * 1024) ∧
    (is_session_start c = true ↔ 4 * 1024 * 1024 < file_size) ∧
    (file_size = 4 * 1024 * 1024 →
     c = FilesUpload (Chunk 0 file_size) dropbox_path overwrite ∧ rest = []) ∧
    (file_size = 4 * 1024 * 1024 + 1 →
     c = SessionStart (Chunk 0 (4 * 1024 * 1024))) ∧
    (file_size ≤ 4 * 1024 * 1024 →
     c = FilesUpload (Chunk 0 (Z.max 0 file_size)) dropbox_path overwrite ∧
     rest = []) ∧
    (4 * 1024 * 1024 < file_size →
     count_calls is_files_upload (c :: rest) = 0%nat).
Proof.
  intros Hf file_size r.
  change (4 * 1024 * 1024) with CHUNK_SIZE.
  destruct (decide (file_size ≤ CHUNK_SIZE)) as [Hsmall|Hlarge].
  - exists (FilesUpload (Chunk 0 (Z.max 0 file_size)) dropbox_path overwrite), [].
    unfold r. rewrite (upload_to_dropbox_small _ _ _ _ _ d) by done.
    simpl. fold file_size. split; [done|].
    split; [tauto|]. split; [split; [done|lia]|].
    split; [intros ->; by rewrite Z.max_r by done|].
    split; [lia|]. split; [done|lia].
  - destruct (upload_to_dropbox_session tar_size dbx w local_path dropbox_path
                d Hf ltac:(fold file_size; lia))
      as (sid & new & Hcalls & _ & Hpre & Hne & _).
    fold r file_size in Hcalls, Hpre.
    destruct new as [|c rest]; [done|]. exists c, rest.
    assert (c = SessionStart (Chunk 0 CHUNK_SIZE)) as ->.
    { destruct Hpre as [k Hk]. unfold session_calls in Hk. simpl in Hk.
      congruence. }
    split; [done|]. split; [split; [done|lia]|].
    split; [split; [lia|done]|]. split; [lia|]. split; [done|].
    split; [lia|]. intros _.
    destruct Hpre as [k Hk].
    pose proof (count_files_upload_session_calls sid dropbox_path file_size)
      as H0.
    rewrite Hk, count_calls_app in H0. lia.
Qed.

(** C4: in every session upload the cursor passed to a call holds the
    number of bytes read from the file before that call's chunk, so it
    increases from call to call; a finish call ends the log and its chunk
    completes the file; it is made once when the upload returns and never
    twice. *)
Theorem session_cursor_invariant dbx w local_path dropbox_path d :
  fs w !! local_path = Some d →
  CHUNK_SIZE < st_size tar_size d →
  let file_size := st_size tar_size d in
  let r := upload_to_dropbox tar_size dbx local_path dropbox_path w in
  ∃ new,
    calls r.2 = calls w ++ new ∧
    (∀ (i : nat) c cursor,
       new !! i = Some c → call_cursor c = Some cursor →
       offset cursor = bytes_read (take i new)) ∧
    (∀ (i j : nat) ci cj cursor_i cursor_j,
       (i < j)%nat → new !! i = Some ci → new !! j = Some cj →
       call_cursor ci = Some cursor_i → call_cursor cj = Some cursor_j →
       offset cursor_i < offset cursor_j) ∧
    (∀ (i : nat) f cursor commit,
       new !! i = Some (SessionFinish f cursor commit) →
       S i = length new ∧
       bytes_read (take i new) + chunk_len f = file_size) ∧
    (count_calls is_session_finish new ≤ 1)%nat ∧
    (r.1 = Ret () → count_calls is_session_finish new = 1%nat) ∧
    (accepts_sessions dbx → r.1 = Ret ()).
Proof.
  intros Hf Hsize file_size r.
  destruct (upload_to_dropbox_session tar_size dbx w local_path dropbox_path
              d Hf Hsize) as (sid & new & Hcalls & _ & Hpre & _ & Hres & Hacc).
  fold r file_size in Hcalls, Hpre, Hres, Hacc |- *.
  pose proof CHUNK_SIZE_pos as HC.
  assert (Hcursor : ∀ (i : nat) c cursor,
            new !! i = Some c → call_cursor c = Some cursor →
            offset cursor = Z.of_nat i * CHUNK_SIZE).
  { intros i c cursor Hi Hc.
    destruct (session_calls_lookup _ _ _ _ _ _ Hpre Hi)
      as (_ & [[_ ->]|[[_ ->]|(_ & _ & ->)]]); simpl in Hc; [done| |];
      by injection Hc as <-. }
  exists new. split; [done|]. split; [|split; [|split; [|split; [|split]]]].
  - intros i c cursor Hi Hc. rewrite (Hcursor _ _ _ Hi Hc).
    by destruct (session_calls_lookup _ _ _ _ _ _ Hpre Hi) as [-> _].
  - intros i j ci cj cursor_i cursor_j Hij Hi Hj Hci Hcj.
    rewrite (Hcursor _ _ _ Hi Hci), (Hcursor _ _ _ Hj Hcj). nia.
  - intros i f cursor commit Hi.
    destruct (session_calls_lookup _ _ _ _ _ _ Hpre Hi)
      as (Hread & [[_ ?]|[[_ ?]|(-> & Hlen & Heq)]]); try done.
    split; [done|]. rewrite Hread. injection Heq as -> _ _. simpl. lia.
  - destruct Hpre as [k Hk].
    pose proof (count_finish_session_calls sid dropbox_path file_size) as H1.
    rewrite Hk, count_calls_app in H1. lia.
  - intros Hret. destruct Hres as [[_ ->]|Hexit]; [|congruence].
    apply count_finish_session_calls.
  - done.
Qed.

End transport_theorems.

Lemma session_append_count_witness :
  ∃ new,
    calls (upload_to_dropbox large_tar (dbx_accepting None) "/work/a.tar"
             "/master.tar" (World work_fs [])).2 = [] ++ new ∧
    (accepts_sessions (dbx_accepting None) →
     (upload_to_dropbox large_tar (dbx_accepting None) "/work/a.tar"
        "/master.tar" (World work_fs [])).1 = Ret ()) ∧
    ((upload_to_dropbox large_tar (dbx_accepting None) "/work/a.tar"
        "/master.tar" (World work_fs [])).1 = Ret () →
     head new = Some (SessionStart (Chunk 0 CHUNK_SIZE)) ∧
     Z.of_nat (count_calls is_session_append new)
       = (10 * 1024 * 1024 - CHUNK_SIZE - 1) / CHUNK_SIZE ∧
     ∃ f cursor commit,
       last new = Some (SessionFinish f cursor commit) ∧
       chunk_len f = 10 * 1024 * 1024 - offset cursor ∧
       0 < chunk_len f ≤ CHUNK_SIZE ∧
       offset cursor
         = CHUNK_SIZE
           + Z.of_nat (count_calls is_session_append new) * CHUNK_SIZE).
Proof.
  apply (session_append_count large_tar (dbx_accepting None) (World work_fs [])
           "/work/a.tar" "/master.tar" (Tar Uncompressed [("x", Bytes ["x"%byte])])).
  - reflexivity.
  - reflexivity.
Defined.

Lemma upload_path_by_size_witness :
  ∃ c rest,
    calls (upload_to_dropbox small_tar (dbx_accepting None) "/work/a.tar"
             "/master.tar" (World work_fs [])).2 = [] ++ c :: rest ∧
    (is_files_upload c = true ↔ 10240 ≤ 4 * 1024 * 1024) ∧
    (is_session_start c = true ↔ 4 * 1024 * 1024 < 10240) ∧
    (10240 = 4 * 1024 * 1024 →
     c = FilesUpload (Chunk 0 10240) "/master.tar" overwrite ∧ rest = []) ∧
    (10240 = 4 * 1024 * 1024 + 1 →
     c = SessionStart (Chunk 0 (4 * 1024 * 1024))) ∧
    (10240 ≤ 4 * 1024 * 1024 →
     c = FilesUpload (Chunk 0 (Z.max 0 10240)) "/master.tar" overwrite ∧
     rest = []) ∧
    (4 * 1024 * 1024 < 10240 →
     count_calls is_files_upload (c :: rest) = 0%nat).
Proof.
  apply (upload_path_by_size small_tar (dbx_accepting None) (World work_fs [])
           "/work/a.tar" "/master.tar" (Tar Uncompressed [("x", Bytes ["x"%byte])])).
  reflexivity.
Defined.

Lemma session_cursor_invariant_witness :
  ∃ new,
    calls (upload_to_dropbox large_tar (dbx_accepting None) "/work/a.tar"
             "/master.tar" (World work_fs [])).2 = [] ++ new ∧
    (∀ (i : nat) c cursor,
       new !! i = Some c → call_cursor c = Some cursor →
       offset cursor = bytes_read (take i new)) ∧
    (∀ (i j : nat) ci cj cursor_i cursor_j,
       (i < j)%nat → new !! i = Some ci → new !! j = Some cj →
       call_cursor ci = Some cursor_i → call_cursor cj = Some cursor_j →
       offset cursor_i < offset cursor_j) ∧
    (∀ (i : nat) f cursor commit,
       new !! i = Some (SessionFinish f cursor commit) →
       S i = length new ∧
       bytes_read (take i new) + chunk_len f = 10 * 1024 * 1024) ∧
    (count_calls is_session_finish new ≤ 1)%nat ∧
    ((upload_to_dropbox large_tar (dbx_accepting None) "/work/a.tar"
        "/master.tar" (World work_fs [])).1 = Ret () →
     count_calls is_session_finish new = 1%nat) ∧
    (accepts_sessions (dbx_accepting None) →
     (upload_to_dropbox large_tar (dbx_accepting None) "/work/a.tar"
        "/master.tar" (World work_fs [])).1 = Ret ()).
Proof.
  apply (session_cursor_invariant large_tar (dbx_accepting None)
           (World work_fs []) "/work/a.tar" "/master.tar"
           (Tar Uncompressed [("x", Bytes ["x"%byte])])).
  - reflexivity.
  - reflexivity.
Defined.

(** C2 as the specification states it fails on a file of exactly two
    chunks: the second chunk goes out with the finish call, so there is no
    append where the formula counts one. *)
Lemma session_counts_as_specified_fails :
  two_chunks_upload.1 = Ret () ∧
  ¬ session_counts_as_specified (2 * CHUNK_SIZE) (calls two_chunks_upload.2).
Proof.
  split; [by vm_compute|]. intros [Hcount _].
  vm_compute in Hcount. discriminate.
Qed.

(** ** Theorems on the fetch and on the orchestrator *)

Lemma update_master_tar_returns master new_file_path dropbox_path w out w' :
  update_master_tar master new_file_path dropbox_path w = (Ret out, w') →
  out = temp_tar_path dropbox_path ∧
  calls w' = calls w ∧
  ∃ members, fs w' = <[out := Tar Uncompressed members]> (fs w).
Proof.
  destruct (truthy master) eqn:Hm.
  - destruct master as [m|]; [|done]. simpl in Hm.
    assert (m ≠ "") by (intros ->; done).
    destruct (fs w !! m) as [[b|c members]|] eqn:Hmaster.
    + unfold update_master_tar. simpl. rewrite Hm. run. by rewrite Hmaster.
    + destruct (fs w !! new_file_path) as [d|] eqn:Hnew.
      * rewrite (update_master_tar_existing _ _ _ _ c members d) by done.
        intros [= <- <-]. eauto.
      * unfold update_master_tar. simpl. rewrite Hm. run. rewrite Hmaster.
        run. by rewrite Hnew.
    + unfold update_master_tar. simpl. rewrite Hm. run. by rewrite Hmaster.
  - rewrite update_master_tar_fresh by done. case_decide.
    + intros [= <- <-]. eauto.
    + destruct (fs w !! new_file_path); [|done]. intros [= <- <-]. eauto.
Qed.

Lemma download_from_dropbox_returns dbx dropbox_path w master_path w' :
  download_from_dropbox dbx dropbox_path w = (Ret master_path, w') →
  master_path = None ∨
  (master_path = Some (local_path_of dropbox_path) ∧
   is_Some (fs w' !! local_path_of dropbox_path)).
Proof.
  rewrite download_from_dropbox_run.
  destruct (files_download_to_file dbx _ _ _) as [d|[|[[]| |]| | |]];
    intros [= <- <-]; auto.
  right. split; [done|]. simpl. rewrite lookup_insert_eq. by eexists.
Qed.

Lemma for_each_app {A} (l1 l2 : list A) (body : A → M unit) w :
  for_each (l1 ++ l2) body w =
    match for_each l1 body w with
    | (Ret _, w') => for_each l2 body w'
    | r => r
    end.
Proof.
  revert w. induction l1 as [|x l1 IH]; intros w; simpl; [done|].
  unfold mbind, M_bind. destruct (body x w) as [[[]|code|e] w']; [|done..].
  apply IH.
Qed.

Section orchestrator_theorems.

Variable tar_size : compression → list (string * file_data) → Z.



(** The cleanup loop, run to its end. *)
Lemma cleanup_run master_path updated_path w :
  truthy (Some updated_path) = true →
  for_each [master_path; Some updated_path] remove_if_present w =
    (Ret (),
     World (delete updated_path
              (if truthy master_path
               then delete (default "" master_path) (fs w) else fs w))
           (calls w)).
Proof.
  intros Hup. cbn [for_each]. unfold mbind, M_bind, pass, mret, M_ret.
  rewrite !remove_if_present_run, Hup.
  by destruct (truthy master_path).
Qed.

(** C8, as the code has it: when the upload of a cycle returns, the
    fetched archive (if one was downloaded) and the merged archive are
    deleted before the cycle ends; when the upload fails the run stops with
    status 1 at once and both files stay where they are. *)
Theorem main_body_cleanup dbx dropbox_path file_path w
    master_path w1 updated_path w2 :
  str_strip file_path ≠ "" →
  str_endswith_any (str_strip file_path) supported_suffixes = true →
  download_from_dropbox dbx dropbox_path w = (Ret master_path, w1) →
  update_master_tar master_path (str_strip file_path) dropbox_path w1
    = (Ret updated_path, w2) →
  let u := upload_to_dropbox tar_size dbx updated_path dropbox_path w2 in
  let r := main_body tar_size dbx dropbox_path file_path w in
  (u.1 = Ret () →
   r.1 = Ret () ∧ calls r.2 = calls u.2 ∧
   (∀ p, master_path = Some p → fs r.2 !! p = None) ∧
   fs r.2 !! updated_path = None) ∧
  (u.1 ≠ Ret () →
   r = (Exit 1, u.2) ∧ fs r.2 = fs w2 ∧
   (∀ p, master_path = Some p → is_Some (fs r.2 !! p)) ∧
   is_Some (fs r.2 !! updated_path)).
Proof.
  intros Hblank Hsuffix Hfetch Hmerge u r.
  destruct (update_master_tar_returns _ _ _ _ _ _ Hmerge)
    as (Hout & _ & members & Hfs2).
  pose proof (download_from_dropbox_returns _ _ _ _ _ Hfetch) as Hmaster.
  destruct (upload_to_dropbox_outcome tar_size dbx w2 updated_path dropbox_path)
    as [Hfsu Hu]. fold u in Hfsu, Hu.
  assert (Hr : r = match u with
                   | (Ret _, w3) =>
                       for_each [master_path; Some updated_path]
                         remove_if_present w3
                   | (Exit code, w3) => (Exit code, w3)
                   | (Raise e, w3) => (Raise e, w3)
                   end).
  { unfold r, main_body, process_archive.
    destruct (String.eqb_spec (str_strip file_path) ""); [done|].
    rewrite Hsuffix. run. rewrite Hfetch, Hmerge. done. }
  split.
  - intros Hret. destruct u as [o w3]. cbn [fst snd] in *. subst o.
    rewrite Hr, cleanup_run
      by (rewrite Hout; apply temp_tar_path_truthy).
    cbn [fst snd fs calls].
    split; [done|]. split; [done|].
    split; [|by rewrite lookup_delete_eq].
    intros p ->. destruct Hmaster as [?|[[= ->] _]]; [done|].
    rewrite local_path_of_truthy. cbn [default].
    rewrite lookup_delete. case_decide; [done|].
    by rewrite lookup_delete_eq.
  - intros Hfail. destruct Hu as [?|Hexit]; [done|].
    destruct u as [o w3]. cbn [fst snd] in *. subst o.
    rewrite Hr. cbn [fst snd]. split; [done|]. split; [done|].
    rewrite Hfsu, Hfs2. split.
    + intros p ->. destruct Hmaster as [?|[[= ->] [d Hd]]]; [done|].
      rewrite lookup_insert. case_decide; by eexists.
    + rewrite lookup_insert_eq. by eexists.
Qed.

Lemma main_body_unsupported dbx dropbox_path entry w :
  str_strip entry ≠ "" →
  str_endswith_any (str_strip entry) supported_suffixes = false →
  main_body tar_size dbx dropbox_path entry w = (Exit 1, w).
Proof.
  intros Hblank Hsuffix. unfold main_body, process_archive.
  destruct (String.eqb_spec (str_strip entry) ""); [done|].
  by rewrite Hsuffix.
Qed.

Lemma main_body_blank dbx dropbox_path entry w :
  str_strip entry = "" →
  main_body tar_size dbx dropbox_path entry w = (Ret (), w).
Proof. intros Hblank. unfold main_body. by rewrite Hblank. Qed.

Lemma for_each_blank dbx dropbox_path entries w :
  Forall (λ e, str_strip e = "") entries →
  for_each entries (main_body tar_size dbx dropbox_path) w = (Ret (), w).
Proof.
  induction 1 as [|e entries He _ IH]; [done|]. simpl.
  unfold mbind, M_bind. by rewrite main_body_blank.
Qed.

Lemma main_entries_unsupported token client before entry after dropbox_path w :
  str_strip entry ≠ "" →
  str_endswith_any (str_strip entry) supported_suffixes = false →
  main_entries tar_size token client (before ++ entry :: after) dropbox_path w =
    match main_entries tar_size token client before dropbox_path w with
    | (Ret _, w') => (Exit 1, w')
    | r => r
    end.
Proof.
  intros Hblank Hsuffix. unfold main_entries.
  destruct (negb (truthy token)); [done|]. unfold mbind, M_bind.
  destruct (initialize_dropbox client (default "" token) w)
    as [[dbx|code|e] w0]; [|done..].
  rewrite for_each_app.
  destruct (for_each before _ w0) as [[[]|code|e] w']; [|done..].
  simpl. unfold mbind, M_bind. by rewrite main_body_unsupported.
Qed.

Lemma exits_with_1_main_entries token client entries dropbox_path :
  exits_with_1 (main_entries tar_size token client entries dropbox_path).
Proof.
  unfold main_entries.
  destruct (negb (truthy token)); [apply exits_with_1_sys_exit|].
  apply exits_with_1_bind.
  - unfold initialize_dropbox. apply exits_with_1_try.
    + apply exits_with_1_bind; [apply exits_with_1_invoke|].
      intros _. apply exits_with_1_ret.
    + intros [] h; try done. intros [= <-]. apply exits_with_1_sys_exit.
  - intros dbx. apply exits_with_1_for_each. intros x.
    apply exits_with_1_main_body.
Qed.

(** C9, as the code has it: a run whose list holds an entry with an
    unsupported suffix ends with status 1 when it reaches that entry, in
    the state the entries before it left: nothing is fetched, merged or
    uploaded for that entry or a later one. The credential check comes
    first and is a remote call; when only blank entries precede the
    unsupported one it is the only call, and no local file is touched.
    The list is ASCII, so that [str_strip] is what [str.strip] does. *)
Theorem main_unsupported_suffix token client changed_files dropbox_path w
    before entry after :
  str_isascii changed_files = true →
  str_split "," changed_files = before ++ entry :: after →
  str_strip entry ≠ "" →
  str_endswith_any (str_strip entry) supported_suffixes = false →
  let r := main tar_size token client changed_files dropbox_path w in
  let r0 := main_entries tar_size token client before dropbox_path w in
  exit_status r.1 = 1 ∧
  r.2 = r0.2 ∧
  (r0.1 = Ret () → r.1 = Exit 1) ∧
  (r0.1 ≠ Ret () → r.1 = r0.1) ∧
  (truthy token = false → r = (Exit 1, w)) ∧
  (truthy token = true →
   users_get_current_account (client (default "" token)) (calls w)
     = Returns () →
   Forall (λ e, str_strip e = "") before →
   r = (Exit 1, World (fs w) (calls w ++ [UsersGetCurrentAccount]))).
Proof.
  intros _ Hsplit Hblank Hsuffix r r0.
  pose proof (main_entries_unsupported token client before entry after
                dropbox_path w Hblank Hsuffix) as Hr.
  rewrite <- Hsplit in Hr.
  change (main_entries tar_size token client (str_split "," changed_files)
            dropbox_path w) with r in Hr.
  fold r0 in Hr.
  pose proof (exits_with_1_main_entries token client before dropbox_path w)
    as Hcode. fold r0 in Hcode.
  split; [|split; [|split; [|split; [|split]]]].
  - rewrite Hr. destruct r0 as [[[]|code|e] w']; simpl in *; [done| |done].
    by apply Hcode.
  - rewrite Hr. by destruct r0 as [[[]|code|e] w'].
  - intros Hret. rewrite Hr. destruct r0 as [[[]|code|e] w']; by simpl in *.
  - intros Hfail. rewrite Hr. by destruct r0 as [[[]|code|e] w'].
  - intros Htoken. rewrite Hr. unfold r0, main_entries. by rewrite Htoken.
  - intros Htoken Haccount Hblanks. rewrite Hr. unfold r0, main_entries.
    rewrite Htoken. simpl.
    unfold initialize_dropbox, try_except, dbx_users_get_current_account,
      invoke. run.
    rewrite Haccount. run. by rewrite for_each_blank.
Qed.

End orchestrator_theorems.


Lemma main_body_cleanup_witness :
  ((upload_to_dropbox small_tar (dbx_accepting (Some remote_master))
      "/tmp/temp_master.tar" "/master.tar" cycle_merged).1 = Ret () →
   (main_body small_tar (dbx_accepting (Some remote_master)) "/master.tar"
      " /work/a.tar" (World work_fs [])).1 = Ret () ∧
   calls (main_body small_tar (dbx_accepting (Some remote_master))
            "/master.tar" " /work/a.tar" (World work_fs [])).2
     = calls (upload_to_dropbox small_tar (dbx_accepting (Some remote_master))
                "/tmp/temp_master.tar" "/master.tar" cycle_merged).2 ∧
   (∀ p, Some "/tmp/master.tar" = Some p →
         fs (main_body small_tar (dbx_accepting (Some remote_master))
               "/master.tar" " /work/a.tar" (World work_fs [])).2 !! p = None) ∧
   fs (main_body small_tar (dbx_accepting (Some remote_master)) "/master.tar"
         " /work/a.tar" (World work_fs [])).2 !! "/tmp/temp_master.tar" = None) ∧
  ((upload_to_dropbox small_tar (dbx_accepting (Some remote_master))
      "/tmp/temp_master.tar" "/master.tar" cycle_merged).1 ≠ Ret () →
   main_body small_tar (dbx_accepting (Some remote_master)) "/master.tar"
     " /work/a.tar" (World work_fs [])
     = (Exit 1,
        (upload_to_dropbox small_tar (dbx_accepting (Some remote_master))
           "/tmp/temp_master.tar" "/master.tar" cycle_merged).2) ∧
   fs (main_body small_tar (dbx_accepting (Some remote_master)) "/master.tar"
         " /work/a.tar" (World work_fs [])).2 = fs cycle_merged ∧
   (∀ p, Some "/tmp/master.tar" = Some p →
         is_Some (fs (main_body small_tar (dbx_accepting (Some remote_master))
                        "/master.tar" " /work/a.tar" (World work_fs [])).2 !! p)) ∧
   is_Some (fs (main_body small_tar (dbx_accepting (Some remote_master))
                  "/master.tar" " /work/a.tar" (World work_fs [])).2
            !! "/tmp/temp_master.tar")).
Proof.
  apply (main_body_cleanup small_tar (dbx_accepting (Some remote_master))
           "/master.tar" " /work/a.tar" (World work_fs [])
           (Some "/tmp/master.tar") cycle_fetched
           "/tmp/temp_master.tar" cycle_merged).
  - discriminate.
  - reflexivity.
  - reflexivity.
  - reflexivity.
Defined.

(** C8 as the specification states it fails when the store refuses the
    upload: [upload_to_dropbox] leaves through [sys.exit] and the cleanup
    loop of [main] is never reached. *)
Lemma cycle_removes_archives_fails :
  ¬ cycle_removes_archives small_tar (dbx_rejecting_uploads (Some remote_master))
      "/master.tar" " /work/a.tar" (World work_fs []).
Proof.
  intros H.
  destruct (H (Some "/tmp/master.tar") cycle_fetched "/tmp/temp_master.tar"
              cycle_merged eq_refl eq_refl) as [_ Hout].
  vm_compute in Hout. discriminate.
Qed.

Lemma main_unsupported_suffix_witness :
  exit_status (main small_tar (Some "token") (λ _, dbx_empty_at_first remote_master)
                 "/work/a.tar, ,/work/b.zip,/work/c.tar" "/master.tar"
                 (World work_fs [])).1 = 1 ∧
  (main small_tar (Some "token") (λ _, dbx_empty_at_first remote_master)
     "/work/a.tar, ,/work/b.zip,/work/c.tar" "/master.tar" (World work_fs [])).2
  = (main_entries small_tar (Some "token") (λ _, dbx_empty_at_first remote_master)
       ["/work/a.tar"; " "] "/master.tar" (World work_fs [])).2 ∧
  ((main_entries small_tar (Some "token") (λ _, dbx_empty_at_first remote_master)
      ["/work/a.tar"; " "] "/master.tar" (World work_fs [])).1 = Ret () →
   (main small_tar (Some "token") (λ _, dbx_empty_at_first remote_master)
      "/work/a.tar, ,/work/b.zip,/work/c.tar" "/master.tar"
      (World work_fs [])).1 = Exit 1) ∧
  ((main_entries small_tar (Some "token") (λ _, dbx_empty_at_first remote_master)
      ["/work/a.tar"; " "] "/master.tar" (World work_fs [])).1 ≠ Ret () →
   (main small_tar (Some "token") (λ _, dbx_empty_at_first remote_master)
      "/work/a.tar, ,/work/b.zip,/work/c.tar" "/master.tar"
      (World work_fs [])).1
   = (main_entries small_tar (Some "token") (λ _, dbx_empty_at_first remote_master)
        ["/work/a.tar"; " "] "/master.tar" (World work_fs [])).1) ∧
  (truthy (Some "token") = false →
   main small_tar (Some "token") (λ _, dbx_empty_at_first remote_master)
     "/work/a.tar, ,/work/b.zip,/work/c.tar" "/master.tar" (World work_fs [])
   = (Exit 1, World work_fs [])) ∧
  (truthy (Some "token") = true →
   users_get_current_account (dbx_empty_at_first remote_master) []
     = Returns () →
   Forall (λ e, str_strip e = "") ["/work/a.tar"; " "] →
   main small_tar (Some "token") (λ _, dbx_empty_at_first remote_master)
     "/work/a.tar, ,/work/b.zip,/work/c.tar" "/master.tar" (World work_fs [])
   = (Exit 1, World work_fs ([] ++ [UsersGetCurrentAccount]))).
Proof.
  apply (main_unsupported_suffix small_tar (Some "token")
           (λ _, dbx_empty_at_first remote_master)
           "/work/a.tar, ,/work/b.zip,/work/c.tar" "/master.tar"
           (World work_fs []) ["/work/a.tar"; " "] "/work/b.zip"
           ["/work/c.tar"]).
  - reflexivity.
  - reflexivity.
  - discriminate.
  - reflexivity.
Defined.

(** C9 as the specification states it fails when a supported entry comes
    first: its whole cycle runs, remote calls included, before the
    unsupported entry is looked at, and the file the fetch opened stays. *)
Lemma aborts_before_any_call_fails :
  ¬ aborts_before_any_call small_tar (Some "token")
      (λ _, dbx_empty_at_first remote_master)
      "/work/a.tar,/work/b.zip" "/master.tar" (World work_fs []).
Proof.
  intros H. destruct H as (_ & Hcalls & _).
  - exists "/work/b.zip". split; [|split].
    + vm_compute. apply list_elem_of_In. right. left. reflexivity.
    + discriminate.
    + reflexivity.
  - vm_compute in Hcalls. discriminate.
Qed.

(** ** Further properties: entries and suffixes *)

Lemma substring_all s : substring 0 (String.length s) s = s.
Proof. induction s as [|c s IH]; simpl; [done | by rewrite IH]. Qed.

Lemma substring_app_r pre suf :
  substring (String.length pre) (String.length suf) (pre +:+ suf) = suf.
Proof. induction pre as [|c pre IH]; simpl; [apply substring_all | done]. Qed.

Lemma substring_split s (m : nat) :
  (m ≤ String.length s)%nat →
  s = substring 0 m s +:+ substring m (String.length s - m) s.
Proof.
  revert m. induction s as [|c s IH]; intros [|m] Hm; simpl in *; try done.
  - by rewrite substring_all.
  - rewrite append_cons. f_equal. apply IH. lia.
Qed.

Lemma string_length_app s1 s2 :
  String.length (s1 +:+ s2) = (String.length s1 + String.length s2)%nat.
Proof.
  induction s1 as [|c s1 IH]; [done|]. rewrite append_cons. simpl.
  by rewrite IH.
Qed.

(** [s.endswith(suffix)] holds exactly when [s] is something followed by
    [suffix]. *)
Lemma str_endswith_spec s suffix :
  str_endswith s suffix = true ↔ ∃ pre, s = pre +:+ suffix.
Proof.
  unfold str_endswith. split.
  - intros [Hle Heq]%andb_true_iff.
    apply Nat.leb_le in Hle. apply String.eqb_eq in Heq.
    exists (substring 0 (String.length s - String.length suffix) s).
    etrans;
      [apply (substring_split s (String.length s - String.length suffix)); lia|].
    f_equal. etrans; [|exact Heq]. f_equal. lia.
  - intros [pre ->]. rewrite string_length_app. apply andb_true_iff. split.
    + apply Nat.leb_le. lia.
    + apply String.eqb_eq.
      replace (String.length pre + String.length suffix - String.length suffix)%nat
        with (String.length pre) by lia.
      apply substring_app_r.
Qed.

Lemma str_lstrip_head s :
  str_lstrip s = "" ∨ ∃ c r, str_lstrip s = String c r ∧ isspace c = false.
Proof.
  induction s as [|c s IH]; simpl; [by left|].
  destruct (isspace c) eqn:Hc; [done|]. right. by exists c, s.
Qed.

Lemma str_rstrip_idemp s : str_rstrip (str_rstrip s) = str_rstrip s.
Proof.
  induction s as [|c s IH]; [done|]. simpl.
  destruct (str_rstrip s) as [|c' r'] eqn:Hr.
  - destruct (isspace c) eqn:Hc; simpl; [done | by rewrite Hc].
  - cbn [str_rstrip]. cbn [str_rstrip] in IH.
    destruct (str_rstrip r') as [|c'' r''] eqn:Hr'.
    + destruct (isspace c') eqn:Hc'; [done|]. by rewrite IH.
    + by rewrite IH.
Qed.

Lemma str_rstrip_head c r :
  isspace c = false → ∃ r', str_rstrip (String c r) = String c r'.
Proof.
  intros Hc. simpl. destruct (str_rstrip r); [rewrite Hc|]; by eexists.
Qed.

(** Stripping twice is stripping once. *)
Lemma str_strip_idemp s : str_strip (str_strip s) = str_strip s.
Proof.
  unfold str_strip.
  destruct (str_lstrip_head s) as [->|(c & r & -> & Hc)]; [done|].
  destruct (str_rstrip_head c r Hc) as [r' Hr']. rewrite Hr'.
  cbn [str_lstrip]. rewrite Hc, <- Hr'. apply str_rstrip_idemp.
Qed.

Lemma str_split_nonempty sep s : str_split sep s ≠ [].
Proof.
  destruct s as [|c s]; simpl; [done|].
  destruct (Ascii.eqb c sep); [done|]. by destruct (str_split sep s).
Qed.

(** Splitting at the separator splits the list of entries. *)
Lemma str_split_app sep s1 s2 :
  str_split sep (s1 +:+ String sep s2) = str_split sep s1 ++ str_split sep s2.
Proof.
  induction s1 as [|c s1 IH].
  - simpl. by rewrite Ascii.eqb_refl.
  - rewrite append_cons. simpl. destruct (Ascii.eqb c sep); [by rewrite IH|].
    rewrite IH. pose proof (str_split_nonempty sep s1) as Hne.
    by destruct (str_split sep s1).
Qed.

(** ** Further properties of [update_master_tar] *)



(** The merge over an existing archive that cannot read the archive or
    the new file. *)
Lemma update_master_tar_unreadable w master new_file_path dropbox_path :
  master ≠ "" →
  (fs w !! master = None →
   update_master_tar (Some master) new_file_path dropbox_path w
     = (Raise OSError, w)) ∧
  (∀ b, fs w !! master = Some (Bytes b) →
   update_master_tar (Some master) new_file_path dropbox_path w
     = (Raise ReadError, w)) ∧
  (∀ c members, fs w !! master = Some (Tar c members) →
   fs w !! new_file_path = None →
   update_master_tar (Some master) new_file_path dropbox_path w
     = (Raise OSError, w)).
Proof.
  intros Hne.
  assert (truthy (Some master) = true) as Ht.
  { simpl. by destruct (String.eqb_spec master ""). }
  unfold update_master_tar. rewrite Ht. run.
  split; [|split].
  - intros ->. done.
  - intros b ->. done.
  - intros c members -> Hn. run. by rewrite Hn.
Qed.



(** X3: [update_master_tar] never calls the remote store and never exits
    the process; whatever the outcome, the only local file it can change is
    its output path, and when it returns that path holds an uncompressed
    tar. The paths are normal, the remote path names a file
    ([remote_file]) and the archive merged into, when there is one, is
    flat, so that extraction stays inside the scratch directory. *)
Theorem update_master_tar_effects w master new_file_path dropbox_path :
  flat_master (fs w) master = true →
  normal_path new_file_path = true →
  remote_file dropbox_path = true →
  let r := update_master_tar master new_file_path dropbox_path w in
  calls r.2 = calls w ∧
  (∀ p, normal_path p = true → p ≠ temp_tar_path dropbox_path →
        fs r.2 !! p = fs w !! p) ∧
  (∀ code, r.1 ≠ Exit code) ∧
  (∀ out, r.1 = Ret out →
     out = temp_tar_path dropbox_path ∧
     ∃ members, fs r.2 !! out = Some (Tar Uncompressed members)).
Proof.
  intros _ _ _ r.
  assert (calls r.2 = calls w ∧
          (∀ p, p ≠ temp_tar_path dropbox_path → fs r.2 !! p = fs w !! p) ∧
          (∀ code, r.1 ≠ Exit code) ∧
          (∀ out, r.1 = Ret out →
             out = temp_tar_path dropbox_path ∧
             ∃ members, fs r.2 !! out = Some (Tar Uncompressed members)))
    as (? & Hframe & ? & ?); [|by auto].
  unfold r.
  destruct (truthy master) eqn:Ht.
  - destruct master as [m|]; [|done]. simpl in Ht.
    assert (m ≠ "") as Hne by (intros ->; done).
    destruct (update_master_tar_unreadable w m new_file_path dropbox_path Hne)
      as (Hnone & Hbytes & Hnew).
    destruct (fs w !! m) as [[b|c members]|] eqn:Hm.
    + rewrite (Hbytes b) by done. solve_effects.
    + destruct (fs w !! new_file_path) as [d|] eqn:Hn.
      * rewrite (update_master_tar_existing _ _ _ _ c members d) by done.
        solve_effects.
      * rewrite (Hnew c members) by done. solve_effects.
    + rewrite Hnone by done. solve_effects.
  - rewrite update_master_tar_fresh by done. case_decide; [solve_effects|].
    destruct (fs w !! new_file_path); solve_effects.
Qed.

Lemma update_master_tar_effects_witness :
  let r := update_master_tar (Some "/tmp/master.tar") "/work/b.txt"
             "/master.tar" (World sample_fs []) in
  calls r.2 = [] ∧
  (∀ p, normal_path p = true → p ≠ "/tmp/temp_master.tar" →
        fs r.2 !! p = sample_fs !! p) ∧
  (∀ code, r.1 ≠ Exit code) ∧
  (∀ out, r.1 = Ret out →
     out = "/tmp/temp_master.tar" ∧
     ∃ members, fs r.2 !! out = Some (Tar Uncompressed members)).
Proof.
  apply (update_master_tar_effects (World sample_fs []) (Some "/tmp/master.tar")
           "/work/b.txt" "/master.tar").
  - reflexivity.
  - reflexivity.
  - reflexivity.
Defined.



(** ** Further properties of [upload_to_dropbox] *)

Lemma bytes_read_session_plan n sid commit file_size pos :
  bytes_read (session_plan n sid commit file_size pos) = file_size - pos.
Proof.
  revert pos. induction n as [|n IH]; intros pos; simpl; [lia|].
  rewrite IH. lia.
Qed.

Lemma bytes_read_session_calls sid dropbox_path file_size :
  bytes_read (session_calls sid dropbox_path file_size) = file_size.
Proof.
  unfold session_calls. cbn [bytes_read foldr call_chunk from_option chunk_len].
  fold (bytes_read (session_plan (appends_needed file_size CHUNK_SIZE) sid
                      (Commit dropbox_path overwrite) file_size CHUNK_SIZE)).
  rewrite bytes_read_session_plan. lia.
Qed.

Section transport_extras.

Variable tar_size : compression → list (string * file_data) → Z.

(** The session branch when the store has opened the session: the calls
    are those of the session under the identifier the store issued. *)
Lemma upload_to_dropbox_session_issued dbx w local_path dropbox_path d sid :
  fs w !! local_path = Some d →
  CHUNK_SIZE < st_size tar_size d →
  files_upload_session_start dbx (calls w) (Chunk 0 CHUNK_SIZE) = Returns sid →
  ∃ new,
    let r := upload_to_dropbox tar_size dbx local_path dropbox_path w in
    calls r.2 = calls w ++ new ∧
    new `prefix_of` session_calls sid dropbox_path (st_size tar_size d) ∧
    ((r.1 = Ret () ∧ new = session_calls sid dropbox_path (st_size tar_size d))
     ∨ r.1 = Exit 1).
Proof.
  intros Hf Hsize Hstart. pose proof CHUNK_SIZE_pos as HC.
  unfold upload_to_dropbox, try_except, os_path_getsize, open_rb.
  run. rewrite Hf. run. rewrite bool_decide_false by lia. run. rewrite Hf.
  run. unfold dbx_files_upload_session_start, invoke. simpl.
  assert (Hread : Z.max 0 (Z.min CHUNK_SIZE (st_size tar_size d - 0)) = CHUNK_SIZE)
    by lia.
  rewrite !Hread. change (0 + CHUNK_SIZE) with CHUNK_SIZE. rewrite Hstart.
  set (w1 := World (fs w) (calls w ++ [SessionStart (Chunk 0 CHUNK_SIZE)])).
  set (f := Stream CHUNK_SIZE (st_size tar_size d)).
  set (cursor := Cursor sid CHUNK_SIZE).
  set (commit := Commit dropbox_path overwrite).
  destruct (session_loop_spec dbx commit f cursor w1 ltac:(done))
    as (new & Hcalls & Hfs & Hres).
  simpl in Hres. rewrite decide_True in Hres by (simpl; lia).
  destruct (session_loop dbx commit f cursor w1) as [o w2].
  simpl in *. exists (SessionStart (Chunk 0 CHUNK_SIZE) :: new).
  unfold session_calls. fold commit.
  destruct Hres as [[-> ->]|(e & -> & Hpre & Hne)]; simpl;
    rewrite Hcalls, <- (assoc_L (++)); simpl.
  - repeat split; auto.
  - repeat split; auto. by apply prefix_cons.
Qed.

(** X5: every append and finish call of a session carries the identifier
    the store issued when the session was opened, and a finish call commits
    to [dropbox_path] in overwrite mode. *)
Theorem session_carries_issued_id dbx w local_path dropbox_path d sid :
  fs w !! local_path = Some d →
  CHUNK_SIZE < st_size tar_size d →
  files_upload_session_start dbx (calls w) (Chunk 0 CHUNK_SIZE) = Returns sid →
  let r := upload_to_dropbox tar_size dbx local_path dropbox_path w in
  ∃ new,
    calls r.2 = calls w ++ new ∧
    (∀ (i : nat) c cursor,
       new !! i = Some c → call_cursor c = Some cursor →
       session_id cursor = sid) ∧
    (∀ (i : nat) f cursor commit,
       new !! i = Some (SessionFinish f cursor commit) →
       commit = Commit dropbox_path overwrite).
Proof.
  intros Hf Hsize Hstart r.
  destruct (upload_to_dropbox_session_issued dbx w local_path dropbox_path d
              sid Hf Hsize Hstart) as (new & Hcalls & Hpre & _).
  exists new. split; [done|]. split.
  - intros i c cursor Hi Hc.
    destruct (session_calls_lookup _ _ _ _ _ _ Hpre Hi)
      as (_ & [[_ ->]|[[_ ->]|(_ & _ & ->)]]); simpl in Hc; [done| |];
      by injection Hc as <-.
  - intros i f cursor commit Hi.
    destruct (session_calls_lookup _ _ _ _ _ _ Hpre Hi)
      as (_ & [[_ ?]|[[_ ?]|(_ & _ & Heq)]]); try done.
    by injection Heq as _ _ ->.
Qed.

(** X6: an upload that returns has sent the whole file once: the chunks of
    its calls follow one another from position 0 and add up to the file's
    size, and none is longer than 4 MiB. *)
Theorem upload_sends_whole_file dbx w local_path dropbox_path d :
  fs w !! local_path = Some d →
  0 ≤ st_size tar_size d →
  let r := upload_to_dropbox tar_size dbx local_path dropbox_path w in
  r.1 = Ret () →
  ∃ new,
    calls r.2 = calls w ++ new ∧
    bytes_read new = st_size tar_size d ∧
    (∀ (i : nat) c,
       new !! i = Some c →
       ∃ f, call_chunk c = Some f ∧
            chunk_start f = bytes_read (take i new) ∧
            0 ≤ chunk_len f ≤ CHUNK_SIZE).
Proof.
  intros Hf Hpos r Hret. pose proof CHUNK_SIZE_pos as HC.
  destruct (decide (st_size tar_size d ≤ CHUNK_SIZE)) as [Hsmall|Hlarge].
  - exists [FilesUpload (Chunk 0 (Z.max 0 (st_size tar_size d)))
              dropbox_path overwrite].
    unfold r. rewrite (upload_to_dropbox_small _ _ _ _ _ d) by done.
    simpl. split; [done|]. split; [lia|].
    intros [|i] c Hi; simpl in Hi; [|done]. injection Hi as <-.
    eexists. split; [done|]. simpl. lia.
  - destruct (upload_to_dropbox_session tar_size dbx w local_path dropbox_path
                d Hf ltac:(lia)) as (sid & new & Hcalls & _ & Hpre & _ & Hres & _).
    fold r in Hcalls, Hres. destruct Hres as [[_ Hnew]|Hexit]; [|congruence].
    exists new. split; [done|]. split.
    { rewrite Hnew. apply bytes_read_session_calls. }
    intros i c Hi.
    pose proof (appends_needed_bounds (st_size tar_size d) ltac:(lia))
      as [_ Hbounds].
    destruct (session_calls_lookup _ _ _ _ _ _ Hpre Hi)
      as (-> & [[-> ->]|[[Hi' ->]|(-> & _ & ->)]]);
      (eexists; split; [done|]); simpl; lia.
Qed.

(** X7: [upload_to_dropbox] never raises and never touches a local file: it
    returns or exits with status 1. A missing local file and a refused first
    call both end in exit 1, the first without any remote call, the second
    with that call alone. *)
Theorem upload_to_dropbox_failures dbx w local_path dropbox_path :
  let r := upload_to_dropbox tar_size dbx local_path dropbox_path w in
  fs r.2 = fs w ∧
  (r.1 = Ret () ∨ r.1 = Exit 1) ∧
  (fs w !! local_path = None → r = (Exit 1, w)) ∧
  (∀ d e, fs w !! local_path = Some d →
     st_size tar_size d ≤ CHUNK_SIZE →
     files_upload dbx (calls w) (Chunk 0 (Z.max 0 (st_size tar_size d)))
       dropbox_path overwrite = Raises e →
     r = (Exit 1,
          World (fs w)
            (calls w ++ [FilesUpload (Chunk 0 (Z.max 0 (st_size tar_size d)))
                           dropbox_path overwrite]))) ∧
  (∀ d e, fs w !! local_path = Some d →
     CHUNK_SIZE < st_size tar_size d →
     files_upload_session_start dbx (calls w) (Chunk 0 CHUNK_SIZE) = Raises e →
     r = (Exit 1,
          World (fs w) (calls w ++ [SessionStart (Chunk 0 CHUNK_SIZE)]))).
Proof.
  intros r.
  destruct (upload_to_dropbox_outcome tar_size dbx w local_path dropbox_path)
    as [Hfs Hout]. fold r in Hfs, Hout.
  split; [done|]. split; [done|]. split; [|split].
  - intros Hf. by apply upload_to_dropbox_missing.
  - intros d e Hf Hsmall Hup. unfold r.
    rewrite (upload_to_dropbox_small _ _ _ _ _ d) by done. simpl.
    by rewrite Hup.
  - intros d e Hf Hlarge Hstart. pose proof CHUNK_SIZE_pos as HC. unfold r.
    unfold upload_to_dropbox, try_except, os_path_getsize, open_rb.
    run. rewrite Hf. run. rewrite bool_decide_false by lia. run. rewrite Hf.
    run. unfold dbx_files_upload_session_start, invoke. simpl.
    assert (Hread : Z.max 0 (Z.min CHUNK_SIZE (st_size tar_size d - 0))
                    = CHUNK_SIZE) by lia.
    rewrite !Hread. by rewrite Hstart.
Qed.

End transport_extras.

Lemma session_carries_issued_id_witness :
  ∃ new,
    calls (upload_to_dropbox large_tar (dbx_accepting None) "/work/a.tar"
             "/master.tar" (World work_fs [])).2 = [] ++ new ∧
    (∀ (i : nat) c cursor,
       new !! i = Some c → call_cursor c = Some cursor →
       session_id cursor = "session-1") ∧
    (∀ (i : nat) f cursor commit,
       new !! i = Some (SessionFinish f cursor commit) →
       commit = Commit "/master.tar" overwrite).
Proof.
  apply (session_carries_issued_id large_tar (dbx_accepting None)
           (World work_fs []) "/work/a.tar" "/master.tar"
           (Tar Uncompressed [("x", Bytes ["x"%byte])]) "session-1").
  - reflexivity.
  - reflexivity.
  - reflexivity.
Defined.

Lemma upload_sends_whole_file_witness :
  ∃ new,
    calls (upload_to_dropbox large_tar (dbx_accepting None) "/work/a.tar"
             "/master.tar" (World work_fs [])).2 = [] ++ new ∧
    bytes_read new = 10 * 1024 * 1024 ∧
    (∀ (i : nat) c,
       new !! i = Some c →
       ∃ f, call_chunk c = Some f ∧
            chunk_start f = bytes_read (take i new) ∧
            0 ≤ chunk_len f ≤ CHUNK_SIZE).
Proof.
  apply (upload_sends_whole_file large_tar (dbx_accepting None)
           (World work_fs []) "/work/a.tar" "/master.tar"
           (Tar Uncompressed [("x", Bytes ["x"%byte])])).
  - reflexivity.
  - discriminate.
  - reflexivity.
Defined.

(** *** No call after a refusal *)

Lemma cons_eq_app_cons {A} (x c : A) (l pre post : list A) :
  x :: l = pre ++ c :: post →
  (pre = [] ∧ c = x ∧ post = l) ∨ (∃ pre', pre = x :: pre' ∧ l = pre' ++ c :: post).
Proof.
  destruct pre as [|y pre]; simpl; intros [= -> ->]; [by left|].
  right. by eexists.
Qed.

Lemma stops_at_refusal_cons dbx log c new (returned : Prop) :
  accepted dbx log c →
  (new = [] → returned) →
  stops_at_refusal dbx (log ++ [c]) new returned →
  stops_at_refusal dbx log (c :: new) returned.
Proof.
  intros Hc Hnil Hnew pre c' post
    [(-> & -> & ->)|(pre' & -> & ->)]%cons_eq_app_cons.
  - rewrite app_nil_r. split; [done|]. intros ->. split; [auto|done].
  - replace (log ++ c :: pre') with ((log ++ [c]) ++ pre')
      by (by rewrite <- (assoc_L (++))).
    by apply Hnew.
Qed.

Lemma stops_at_refusal_refused dbx log c (returned : Prop) :
  ¬ accepted dbx log c → ¬ returned →
  stops_at_refusal dbx log [c] returned.
Proof.
  intros Hc Hret pre c' post
    [(-> & -> & ->)|(pre' & -> & Hnil)]%cons_eq_app_cons.
  - rewrite app_nil_r. split; [done|]. intros _. tauto.
  - by destruct pre'.
Qed.

Lemma stops_at_refusal_iff dbx log new (P Q : Prop) :
  (P ↔ Q) → stops_at_refusal dbx log new P → stops_at_refusal dbx log new Q.
Proof.
  intros HPQ Hstop pre c post Heq. destruct (Hstop pre c post Heq) as [H1 H2].
  split; [done|]. intros Hp. rewrite <- HPQ. by apply H2.
Qed.

Lemma session_loop_stops_at_refusal dbx commit f cursor w :
  ∃ new,
    calls (session_loop dbx commit f cursor w).2 = calls w ++ new ∧
    (new = [] → (session_loop dbx commit f cursor w).1 = Ret ()) ∧
    stops_at_refusal dbx (calls w) new
      ((session_loop dbx commit f cursor w).1 = Ret ()).
Proof.
  funelim (session_loop dbx commit f cursor w).
  - exists []. rewrite app_nil_r. repeat split; try done.
    all: by destruct pre.
  - unfold dbx_files_upload_session_finish, invoke.
    destruct (files_upload_session_finish dbx _ _ _ _) as [[]|e] eqn:Hans.
    + match goal with
      | IH : context [stops_at_refusal] |- _ =>
          destruct (IH (Ret ()) (World (fs w)
                     (calls w ++ [SessionFinish (f_read CHUNK_SIZE f).1
                                    cursor commit])) ())
            as (new & Hcalls & Hnil & Hstop)
      end.
      simpl in *.
      eexists (SessionFinish (f_read CHUNK_SIZE f).1 cursor commit :: new).
      rewrite Hcalls, <- (assoc_L (++)). split; [done|]. split; [done|].
      by apply stops_at_refusal_cons.
    + exists [SessionFinish (f_read CHUNK_SIZE f).1 cursor commit].
      simpl. split; [done|]. split; [done|].
      apply stops_at_refusal_refused; simpl in *; congruence.
  - unfold dbx_files_upload_session_append_v2, invoke.
    destruct (files_upload_session_append_v2 dbx _ _ _) as [[]|e] eqn:Hans.
    + match goal with
      | IH : context [stops_at_refusal] |- _ =>
          destruct (IH (Ret ()) (World (fs w)
                     (calls w ++ [SessionAppend (f_read CHUNK_SIZE f).1
                                    cursor])) ())
            as (new & Hcalls & Hnil & Hstop)
      end.
      simpl in *.
      eexists (SessionAppend (f_read CHUNK_SIZE f).1 cursor :: new).
      rewrite Hcalls, <- (assoc_L (++)). split; [done|]. split; [done|].
      by apply stops_at_refusal_cons.
    + exists [SessionAppend (f_read CHUNK_SIZE f).1 cursor].
      simpl. split; [done|]. split; [done|].
      apply stops_at_refusal_refused; simpl in *; congruence.
Qed.

Section transport_refusal.

Variable tar_size : compression → list (string * file_data) → Z.


(** X8: an upload never goes on after a refusal and never gives up before
    one: every call that is followed by another was accepted by the store,
    and the upload returns exactly when its last call was accepted too. *)
Theorem upload_stops_at_refusal dbx w local_path dropbox_path d :
  fs w !! local_path = Some d →
  let r := upload_to_dropbox tar_size dbx local_path dropbox_path w in
  ∃ new,
    calls r.2 = calls w ++ new ∧
    new ≠ [] ∧
    stops_at_refusal dbx (calls w) new (r.1 = Ret ()).
Proof.
  intros Hf r. pose proof CHUNK_SIZE_pos as HC.
  destruct (decide (st_size tar_size d ≤ CHUNK_SIZE)) as [Hsmall|Hlarge].
  - exists [FilesUpload (Chunk 0 (Z.max 0 (st_size tar_size d)))
              dropbox_path overwrite].
    unfold r. rewrite (upload_to_dropbox_small _ _ _ _ _ d) by done.
    simpl. split; [done|]. split; [done|].
    intros pre c post [(-> & -> & ->)|(pre' & -> & Hnil)]%cons_eq_app_cons;
      [|by destruct pre'].
    rewrite app_nil_r. simpl. split; [done|]. intros _.
    destruct (files_upload dbx _ _ _ _) as [[]|e]; split; congruence.
  - unfold r, upload_to_dropbox, try_except, os_path_getsize, open_rb.
    run. rewrite Hf. run. rewrite bool_decide_false by lia. run. rewrite Hf.
    run. unfold dbx_files_upload_session_start, invoke. simpl.
    destruct (files_upload_session_start dbx _ _) as [sid|e] eqn:Hstart.
    + match goal with
      | |- context [session_loop dbx ?commit ?f ?cursor ?w1] =>
          destruct (session_loop_stops_at_refusal dbx commit f cursor w1)
            as (new & Hcalls & Hnil & Hstop);
          destruct (session_loop dbx commit f cursor w1) as [o w2]
      end.
      simpl in *. eexists (_ :: new).
      assert (Hret : (match o with
                      | Ret a => (Ret a, w2)
                      | Exit code => (Exit code, w2)
                      | Raise _ => (@Exit unit 1, w2)
                      end).1 = Ret () ↔ o = Ret ()).
      { destruct o as [[]|code|e]; simpl; split; congruence. }
      assert (Hw : (match o with
                    | Ret a => (Ret a, w2)
                    | Exit code => (Exit code, w2)
                    | Raise _ => (@Exit unit 1, w2)
                    end).2 = w2) by (by destruct o as [[]|code|e]).
      rewrite Hw, Hcalls, <- (assoc_L (++)).
      split; [done|]. split; [done|].
      apply stops_at_refusal_cons; [by eexists| |].
      * intros Hn. apply Hret. auto.
      * eapply stops_at_refusal_iff; [|exact Hstop]. by symmetry.
    + eexists [_]. simpl. split; [done|]. split; [done|].
      apply stops_at_refusal_refused; simpl; [|done].
      intros [sid Hsid]. congruence.
Qed.

End transport_refusal.

Lemma upload_stops_at_refusal_witness :
  ∃ new,
    calls (upload_to_dropbox large_tar (dbx_rejecting_uploads None)
             "/work/a.tar" "/master.tar" (World work_fs [])).2 = [] ++ new ∧
    new ≠ [] ∧
    stops_at_refusal (dbx_rejecting_uploads None) [] new
      ((upload_to_dropbox large_tar (dbx_rejecting_uploads None)
          "/work/a.tar" "/master.tar" (World work_fs [])).1 = Ret ()).
Proof.
  apply (upload_stops_at_refusal large_tar (dbx_rejecting_uploads None)
           (World work_fs []) "/work/a.tar" "/master.tar"
           (Tar Uncompressed [("x", Bytes ["x"%byte])])).
  reflexivity.
Defined.

(** ** Further properties of the fetch and of [main] *)

(** X9: [process_archive] lets a path through, unchanged and without any
    effect, exactly when the path ends in [.tar.gz], [.tgz] or [.tar] (the
    bare suffix included); any other path ends the process with status 1. *)
Theorem process_archive_accepts_iff file_path w :
  (process_archive file_path w = (Ret file_path, w) ∨
   process_archive file_path w = (Exit 1, w)) ∧
  (process_archive file_path w = (Ret file_path, w) ↔
   ∃ stem suffix,
     suffix ∈ supported_suffixes ∧ file_path = stem +:+ suffix).
Proof.
  unfold process_archive, str_endswith_any.
  destruct (existsb _ _) eqn:Hany.
  - split; [by left|]. split; [intros _|done].
    apply existsb_exists in Hany as (suffix & Hin & [stem ->]%str_endswith_spec).
    exists stem, suffix. by rewrite list_elem_of_In.
  - split; [by right|]. split; [done|].
    intros (stem & suffix & Hin%list_elem_of_In & ->).
    assert (existsb (str_endswith (stem +:+ suffix)) supported_suffixes = true)
      as Htrue; [|congruence].
    apply existsb_exists. exists suffix. split; [done|].
    apply str_endswith_spec. by exists stem.
Qed.


Lemma temp_tar_path_eq dropbox_path :
  temp_tar_path dropbox_path = "/tmp/temp_" +:+ os_path.basename dropbox_path.
Proof. reflexivity. Qed.

Lemma local_path_of_eq dropbox_path :
  local_path_of dropbox_path =
    if String.prefix "/" (os_path.basename dropbox_path)
    then os_path.basename dropbox_path
    else "/tmp/" +:+ os_path.basename dropbox_path.
Proof.
  unfold local_path_of, os_path.join, str_startswith.
  by destruct (String.prefix "/" (os_path.basename dropbox_path)).
Qed.

(** The download path and the merge output are never the same file. *)
Lemma local_path_ne_temp_tar_path dropbox_path :
  local_path_of dropbox_path ≠ temp_tar_path dropbox_path.
Proof.
  rewrite local_path_of_eq, temp_tar_path_eq.
  generalize (os_path.basename dropbox_path). intros b Heq.
  apply (f_equal String.length) in Heq.
  destruct (String.prefix "/" b);
    rewrite ?string_length_app in Heq; simpl in Heq; lia.
Qed.

Section orchestrator_extras.

Variable tar_size : compression → list (string * file_data) → Z.

Lemma main_body_strip dbx dropbox_path entry :
  main_body tar_size dbx dropbox_path (str_strip entry)
  = main_body tar_size dbx dropbox_path entry.
Proof. unfold main_body. by rewrite str_strip_idemp. Qed.

Lemma for_each_normalised dbx dropbox_path entries w :
  for_each entries (main_body tar_size dbx dropbox_path) w =
  for_each (str_strip <$> filter (λ e, str_strip e ≠ "") entries)
    (main_body tar_size dbx dropbox_path) w.
Proof.
  revert w. induction entries as [|e entries IH]; intros w; [done|].
  destruct (decide (str_strip e = "")) as [Hblank|Hentry].
  - rewrite filter_cons_False by tauto. simpl. unfold mbind, M_bind.
    rewrite main_body_blank by done. apply IH.
  - rewrite filter_cons_True by done. simpl. unfold mbind, M_bind.
    rewrite main_body_strip.
    destruct (main_body _ _ _ e w) as [[[]|code|exc] w']; [apply IH|done..].
Qed.

(** X11: blank entries of an ASCII list are skipped and the others are
    stripped of surrounding white space before anything else: a run on
    [changed_files] is the run on its non-blank entries, stripped. *)
Theorem main_normalises_entries token client changed_files dropbox_path w :
  str_isascii changed_files = true →
  main tar_size token client changed_files dropbox_path w =
  main_entries tar_size token client
    (str_strip <$> filter (λ e, str_strip e ≠ "") (str_split "," changed_files))
    dropbox_path w.
Proof.
  intros _.
  unfold main, main_entries. destruct (negb (truthy token)); [done|].
  unfold mbind, M_bind.
  destruct (initialize_dropbox client (default "" token) w)
    as [[dbx|code|e] w']; [|done..].
  apply for_each_normalised.
Qed.

(** X12: the credential is checked before any entry is looked at. Without a
    token the run exits with status 1 and calls nothing; with a token the
    store refuses, the account check is the only call: [AuthError] gives
    exit 1, any other exception is left uncaught; no local file is touched
    in either case. *)
Theorem main_preflight token client changed_files dropbox_path w :
  let r := main tar_size token client changed_files dropbox_path w in
  (truthy token = false → r = (Exit 1, w)) ∧
  (truthy token = true →
   ∀ e, users_get_current_account (client (default "" token)) (calls w)
          = Raises e →
        r = (match e with AuthError => Exit 1 | _ => Raise e end,
             World (fs w) (calls w ++ [UsersGetCurrentAccount]))).
Proof.
  intros r. unfold r, main. split.
  - intros ->. done.
  - intros -> e He. simpl.
    unfold initialize_dropbox, try_except, dbx_users_get_current_account,
      invoke. run. rewrite He. by destruct e.
Qed.

Lemma main_entries_app token client before after dropbox_path w :
  main_entries tar_size token client (before ++ after) dropbox_path w =
    match main_entries tar_size token client before dropbox_path w with
    | (Ret _, w') =>
        for_each after
          (main_body tar_size (client (default "" token)) dropbox_path) w'
    | r => r
    end.
Proof.
  unfold main_entries. destruct (negb (truthy token)); [done|].
  unfold initialize_dropbox, try_except, dbx_users_get_current_account,
    invoke. run.
  destruct (users_get_current_account _ _) as [[]|[]]; run; try done.
  rewrite for_each_app.
  by destruct (for_each before _ _) as [[[]|code|e] w'].
Qed.

(** X13: entries are processed one after the other and a failure is final:
    the run on [before,after] is the run on [before] followed, when that
    returned, by the cycles of the entries of [after] from the world it
    left; when it did not return, the outcome and the world are those of the
    run on [before], and nothing of [after] is looked at. *)
Theorem main_app token client before after dropbox_path w :
  main tar_size token client (before +:+ "," +:+ after) dropbox_path w =
    match main tar_size token client before dropbox_path w with
    | (Ret _, w') =>
        for_each (str_split "," after)
          (main_body tar_size (client (default "" token)) dropbox_path) w'
    | r => r
    end.
Proof.
  change (main tar_size token client (before +:+ "," +:+ after) dropbox_path w)
    with (main_entries tar_size token client
            (str_split "," (before +:+ String "," after)) dropbox_path w).
  rewrite str_split_app. apply main_entries_app.
Qed.

(** X14: the exit status of a run is 0 or 1, and 0 exactly when [main]
    returns. *)
Theorem main_exit_status token client changed_files dropbox_path w :
  let r := main tar_size token client changed_files dropbox_path w in
  (exit_status r.1 = 0 ∨ exit_status r.1 = 1) ∧
  (exit_status r.1 = 0 ↔ r.1 = Ret ()).
Proof.
  intros r.
  pose proof (exits_with_1_main_entries tar_size token client
                (str_split "," changed_files) dropbox_path w) as Hcode.
  change (main_entries tar_size token client (str_split "," changed_files)
            dropbox_path w) with r in Hcode.
  destruct r.1 as [[]|code|e]; simpl.
  - split; [by left|done].
  - rewrite (Hcode code eq_refl). split; [by right|done].
  - split; [by right|done].
Qed.

End orchestrator_extras.

Section orchestrator_runs.

Variable tar_size : compression → list (string * file_data) → Z.

(** The cycle of an entry that passes validation, step by step. *)
Lemma main_body_valid dbx dropbox_path entry w :
  str_strip entry ≠ "" →
  str_endswith_any (str_strip entry) supported_suffixes = true →
  main_body tar_size dbx dropbox_path entry w =
    (master_path ← download_from_dropbox dbx dropbox_path;
     updated_path ← update_master_tar master_path (str_strip entry) dropbox_path;
     upload_to_dropbox tar_size dbx updated_path dropbox_path;;
     for_each [master_path; Some updated_path] remove_if_present) w.
Proof.
  intros Hblank Hsuffix. unfold main_body, process_archive.
  destruct (String.eqb_spec (str_strip entry) ""); [done|].
  by rewrite Hsuffix.
Qed.

(** X15: when the remote object does not exist and the cycle runs to its
    end, the merged archive is removed but the empty file that the fetch
    opened at the download path stays in the temporary directory. *)
Theorem main_body_absent_leaves_empty_file dbx dropbox_path entry w :
  str_strip entry ≠ "" →
  str_endswith_any (str_strip entry) supported_suffixes = true →
  files_download_to_file dbx (calls w) (local_path_of dropbox_path) dropbox_path
    = Raises (ApiError (path not_found)) →
  let r := main_body tar_size dbx dropbox_path entry w in
  r.1 = Ret () →
  fs r.2 !! local_path_of dropbox_path = Some empty_file ∧
  fs r.2 !! temp_tar_path dropbox_path = None.
Proof.
  intros Hblank Hsuffix Habsent r. unfold r.
  rewrite main_body_valid by done. unfold mbind, M_bind.
  rewrite download_from_dropbox_run, Habsent.
  destruct (update_master_tar None _ _ _) as [[out|code|e] w2] eqn:Hmerge;
    [|done..].
  destruct (update_master_tar_returns _ _ _ _ _ _ Hmerge)
    as (-> & _ & members & Hfs2). simpl in Hfs2.
  destruct (upload_to_dropbox_outcome tar_size dbx w2
              (temp_tar_path dropbox_path) dropbox_path) as [Hfsu Hu].
  destruct (upload_to_dropbox _ _ _ _ w2) as [[[]|code|e] w3]; [|done..].
  rewrite cleanup_run by apply temp_tar_path_truthy.
  simpl in *. intros _. rewrite Hfsu, Hfs2. split.
  - rewrite lookup_delete_ne by (symmetry; apply local_path_ne_temp_tar_path).
    rewrite lookup_insert_ne by (symmetry; apply local_path_ne_temp_tar_path).
    by rewrite lookup_insert_eq.
  - by rewrite lookup_delete_eq.
Qed.







End orchestrator_runs.

Lemma main_body_absent_leaves_empty_file_witness :
  fs (main_body small_tar (dbx_accepting None) "/master.tar" " /work/a.tar"
        (World work_fs [])).2 !! "/tmp/master.tar" = Some empty_file ∧
  fs (main_body small_tar (dbx_accepting None) "/master.tar" " /work/a.tar"
        (World work_fs [])).2 !! "/tmp/temp_master.tar" = None.
Proof.
  apply (main_body_absent_leaves_empty_file small_tar (dbx_accepting None)
           "/master.tar" " /work/a.tar" (World work_fs [])).
  - discriminate.
  - reflexivity.
  - reflexivity.
  - reflexivity.
Defined.


Lemma main_normalises_entries_witness :
  main small_tar (Some "token") (λ _, dbx_accepting None)
    " /work/a.tar , ,/work/b.zip" "/master.tar" (World work_fs []) =
  main_entries small_tar (Some "token") (λ _, dbx_accepting None)
    (str_strip <$> filter (λ e, str_strip e ≠ "")
                     (str_split "," " /work/a.tar , ,/work/b.zip"))
    "/master.tar" (World work_fs []).
Proof.
  apply (main_normalises_entries small_tar (Some "token")
           (λ _, dbx_accepting None) " /work/a.tar , ,/work/b.zip"
           "/master.tar" (World work_fs [])).
  reflexivity.
Defined.




